(** * Snowflake proxy: session engine and IP-sighting sink cluster

    A shallow embedding of the parts of the snowflake proxy that the
    specification talks about:

    - [SinkCluster]: [common/ipsetsink/sinkcluster/writer.go]
      ([WriteIPSetToDisk], [AddIPToSet]);
    - [ProxyMain]: [proxy/snowflake.go] ([limitedRead], the cadence of
      [pollOffer], [makePeerConnectionFromOffer], [runSession],
      [datachannelHandler], and the first [webRTCConn]);
    - [ProxyLib]: [proxy/lib/webrtcconn.go] (the second [webRTCConn] with
      its watchdog and send-more gate, [remoteIPFromSDP]).

    Go values are modelled as follows.  A [time.Time] and a
    [time.Duration] are integers (nanoseconds) in [Z]; an [int64] is a [Z]
    with its wrap-around written out where the code can reach it; a
    [[]byte] is a [list byte]; an [error] is its message, and a nil error
    or a nil pointer is [None].  Calls into libraries that are not part of
    the repository (pion, net, regexp, encoding/json, the durable writers)
    are parameters of the section that uses them. *)

From Stdlib Require Import ZArith List String Bool Lia.
From Stdlib.Strings Require Import Byte Ascii.
Import ListNotations.

(** ** Go runtime notions shared by the packages *)

Module Go.

Definition error := string.
Abbreviation bytes := (list byte) (only parsing).

(** A Go [(value, err)] pair of which exactly one is meaningful. *)
Inductive result (A : Type) : Type :=
| Ok (a : A)
| Err (e : error).
Arguments Ok {A} a.
Arguments Err {A} e.

(** How a call ends: it returns, it panics (nil dereference, slice out of
    range, close of a closed channel), or it blocks on a channel operation
    that no other goroutine completes. *)
Inductive outcome (A : Type) : Type :=
| Returned (a : A)
| Panicked (msg : string)
| Blocked.
Arguments Returned {A} a.
Arguments Panicked {A} msg.
Arguments Blocked {A}.

(** [errors.Join]: nil when every argument is nil, otherwise the non-nil
    errors, in order. *)
Definition errors_Join (errs : list (option error)) : option (list error) :=
  match flat_map (fun e => match e with Some m => [m] | None => [] end) errs with
  | [] => None
  | l => Some l
  end.

Definition io_ErrShortWrite : error := "short write"%string.
Definition io_ErrUnexpectedEOF : error := "unexpected EOF"%string.

End Go.

(** ** The sink cluster ([sinkcluster/writer.go]) *)

Module SinkCluster.
Import Go.
Local Open Scope Z_scope.

(** Modelled from the spec: [SinkEntry], the sighting entry, which the
    package declares in a file that is not among the sources; the three
    fields are those that [WriteIPSetToDisk] fills. *)
Record SinkEntry : Type := {
  RecordingStart : Z;
  RecordingEnd : Z;
  Recorded : bytes
}.

(** What a flush does, in order; the log makes ordering statable. *)
Inductive op : Type :=
| OpDump (name : string)
| OpMarshal (name : string)
| OpWrite (name : string) (line : bytes)
| OpSync (name : string)
| OpReset (name : string)
| OpLogError (e : error)
| OpSetLastWriteTime (t : Z)
| OpAddIP (name : string) (ip : string).



Section Cluster.

(** The probabilistic set [ipsetsink.IPSetSink], of a package that is not
    among the sources: the cluster uses only its [Dump], [Reset] and
    [AddIPToSet] (here [AddIP]), which are parameters. *)
Variable IPSetSink : Type.
Variable Dump : IPSetSink -> result bytes.
Variable Reset : IPSetSink -> IPSetSink.
Variable AddIP : IPSetSink -> string -> IPSetSink.

(** The [WriteSyncer] interface: [Write] reports the number of bytes it
    took and an error; [Sync] reports an error. *)
Variable Writer : Type.
Variable Write : Writer -> bytes -> Writer * nat * option error.
Variable Sync : Writer -> Writer * option error.

(** [json.Marshal] on a [SinkEntry]. *)
Variable Marshal : SinkEntry -> result bytes.

Record sink : Type := {
  writer : Writer;
  current : IPSetSink
}.

(** [sinks] is a Go map; the list gives its entries in the order in which
    the [range] loop of this call visits them (Go leaves that order open,
    and the theorems hold for every order). *)
Record ClusterWriter : Type := {
  sinks : list (string * sink);
  lastWriteTime : Z;
  writeInterval : Z
}.

(** [io.Copy(w, bytes.NewReader(data))] for non-empty [data]: one [Write]
    of all the bytes; a short count without an error is
    [io.ErrShortWrite]. *)
Definition io_Copy (w : Writer) (data : bytes) : Writer * option error :=
  let '(w', n, err) := Write w data in
  match err with
  | Some e => (w', Some e)
  | None => if Nat.eqb n (List.length data) then (w', None) else (w', Some io_ErrShortWrite)
  end.

Definition newline : byte := x0a.

(** The body of the loop of [WriteIPSetToDisk] for one sink: the sink
    afterwards, what was done, and whether the loop goes on ([false] is
    the early [return]). *)
Definition flush_sink (lastWrite currentTime : Z) (name : string) (s : sink)
  : sink * list op * bool :=
  match Dump (current s) with
  | Err e => (s, [OpDump name; OpLogError e], false)
  | Ok data =>
    let entry := {| RecordingStart := lastWrite;
                    RecordingEnd := currentTime;
                    Recorded := data |} in
    match Marshal entry with
    | Err e => (s, [OpDump name; OpMarshal name; OpLogError e], false)
    | Ok jsonData =>
      let jsonData := jsonData ++ [newline] in
      let '(w1, err) := io_Copy (writer s) jsonData in
      match err with
      | Some e =>
        ({| writer := w1; current := current s |},
         [OpDump name; OpMarshal name; OpWrite name jsonData; OpLogError e], false)
      | None =>
        let '(w2, _) := Sync w1 in
        ({| writer := w2; current := Reset (current s) |},
         [OpDump name; OpMarshal name; OpWrite name jsonData; OpSync name; OpReset name],
         true)
      end
    end
  end.

(** [for _, sink := range c.sinks { ... }] with its early return. *)
Fixpoint flush_loop (lastWrite currentTime : Z) (ss : list (string * sink))
  : list (string * sink) * list op * bool :=
  match ss with
  | [] => ([], [], true)
  | (name, s) :: rest =>
    let '(s', ops, go_on) := flush_sink lastWrite currentTime name s in
    if go_on then
      let '(rest', ops', done) := flush_loop lastWrite currentTime rest in
      ((name, s') :: rest', ops ++ ops', done)
    else ((name, s') :: rest, ops, false)
  end.

(** [WriteIPSetToDisk]; [currentTime] is what [time.Now()] returns at its
    first line. *)
Definition WriteIPSetToDisk (c : ClusterWriter) (currentTime : Z)
  : ClusterWriter * list op :=
  let '(ss, ops, done) := flush_loop (lastWriteTime c) currentTime (sinks c) in
  if done then
    ({| sinks := ss; lastWriteTime := currentTime; writeInterval := writeInterval c |},
     ops ++ [OpSetLastWriteTime currentTime])
  else
    ({| sinks := ss; lastWriteTime := lastWriteTime c; writeInterval := writeInterval c |},
     ops).

(** [c.sinks[name]]: the entry, or nil. *)
Fixpoint lookup_sink (name : string) (ss : list (string * sink)) : option sink :=
  match ss with
  | [] => None
  | (n, s) :: rest => if String.eqb n name then Some s else lookup_sink name rest
  end.

(** The in-place update of the sink that [c.sinks[name]] points to. *)
Fixpoint update_sink (name : string) (f : sink -> sink) (ss : list (string * sink))
  : list (string * sink) :=
  match ss with
  | [] => []
  | (n, s) :: rest =>
    if String.eqb n name then (n, f s) :: rest
    else (n, s) :: update_sink name f rest
  end.

Definition add_to_sink (ip : string) (s : sink) : sink :=
  {| writer := writer s; current := AddIP (current s) ip |}.

(** [AddIPToSet]; [now] is the clock reading of the interval test and
    [currentTime] the later one taken inside the flush.  A name that was
    never registered makes [c.sinks[name]] nil, and the field access
    panics (after the flush, when one was due).  The result is the
    cluster as the call leaves it, what was done, and how the call
    ended. *)
Definition AddIPToSet (c : ClusterWriter) (name ipAddress : string) (now currentTime : Z)
  : ClusterWriter * list op * outcome unit :=
  let '(c1, ops) :=
    if lastWriteTime c + writeInterval c <? now
    then WriteIPSetToDisk c currentTime
    else (c, []) in
  match lookup_sink name (sinks c1) with
  | None => (c1, ops, Panicked "nil pointer dereference")
  | Some _ =>
    ({| sinks := update_sink name (add_to_sink ipAddress) (sinks c1);
        lastWriteTime := lastWriteTime c1;
        writeInterval := writeInterval c1 |},
     ops ++ [OpAddIP name ipAddress],
     Returned tt)
  end.

(** A sink whose dump, marshalling or write fails at this flush. *)
Definition sink_fails (lastWrite currentTime : Z) (ns : string * sink) : bool :=
  negb (snd (flush_sink lastWrite currentTime (fst ns) (snd ns))).

(** The sink and the operations of a complete loop body. *)
Definition flushed (lastWrite currentTime : Z) (ns : string * sink) : string * sink :=
  (fst ns, fst (fst (flush_sink lastWrite currentTime (fst ns) (snd ns)))).

Definition flush_ops (lastWrite currentTime : Z) (ns : string * sink) : list op :=
  snd (fst (flush_sink lastWrite currentTime (fst ns) (snd ns))).

Definition writers (ss : list (string * sink)) : list (string * Writer) :=
  map (fun ns => (fst ns, writer (snd ns))) ss.


(** *** Lemmas on one loop body *)


Lemma flush_sink_ok_inv lw now name s s' ops :
  flush_sink lw now name s = (s', ops, true) ->
  exists data jsonData w1 w2 serr,
    Dump (current s) = Ok data /\
    Marshal {| RecordingStart := lw; RecordingEnd := now; Recorded := data |} = Ok jsonData /\
    io_Copy (writer s) (jsonData ++ [newline]) = (w1, None) /\
    Sync w1 = (w2, serr) /\
    s' = {| writer := w2; current := Reset (current s) |} /\
    ops = [OpDump name; OpMarshal name; OpWrite name (jsonData ++ [newline]);
           OpSync name; OpReset name].
Proof.
  unfold flush_sink.
  destruct (Dump (current s)) as [data|e]; [|discriminate].
  destruct (Marshal _) as [jsonData|e] eqn:HM; [|discriminate].
  destruct (io_Copy _ _) as [w1 [e|]] eqn:HC; [discriminate|].
  destruct (Sync w1) as [w2 serr] eqn:HS.
  intros H; injection H as <- <-.
  exists data, jsonData, w1, w2, serr. repeat split; assumption.
Qed.


Lemma flush_sink_split lw now ns :
  flush_sink lw now (fst ns) (snd ns) =
  (snd (flushed lw now ns), flush_ops lw now ns, negb (sink_fails lw now ns)).
Proof.
  unfold flushed, flush_ops, sink_fails; cbn.
  destruct (flush_sink lw now (fst ns) (snd ns)) as [[s' ops] b]; cbn.
  now rewrite negb_involutive.
Qed.

Lemma flush_ops_ok lw now ns :
  sink_fails lw now ns = false ->
  exists line,
    flush_ops lw now ns =
    [OpDump (fst ns); OpMarshal (fst ns); OpWrite (fst ns) line;
     OpSync (fst ns); OpReset (fst ns)] /\
    current (snd (flushed lw now ns)) = Reset (current (snd ns)).
Proof.
  intros Hok. pose proof (flush_sink_split lw now ns) as E.
  rewrite Hok in E; change (negb false) with true in E.
  destruct (flush_sink_ok_inv _ _ _ _ _ _ E)
    as (data & json & w1 & w2 & serr & _ & _ & _ & _ & Hs & Hops).
  exists (json ++ [newline]). split; [exact Hops|]. now rewrite Hs.
Qed.

(** *** Lemmas on the loop *)

Lemma flush_loop_all_ok lw now ss :
  Forall (fun ns => sink_fails lw now ns = false) ss ->
  flush_loop lw now ss = (map (flushed lw now) ss, flat_map (flush_ops lw now) ss, true).
Proof.
  induction 1 as [|[name s] rest Hok _ IH]; [reflexivity|].
  cbn [flush_loop map flat_map].
  pose proof (flush_sink_split lw now (name, s)) as E; cbn [fst snd] in E.
  rewrite E, Hok, IH; reflexivity.
Qed.

Lemma flush_loop_first_failure lw now pre ns post :
  Forall (fun x => sink_fails lw now x = false) pre ->
  sink_fails lw now ns = true ->
  flush_loop lw now (pre ++ ns :: post) =
  (map (flushed lw now) pre ++ flushed lw now ns :: post,
   flat_map (flush_ops lw now) pre ++ flush_ops lw now ns,
   false).
Proof.
  intros Hpre Hfail.
  induction Hpre as [|[name s] rest Hok _ IH].
  - destruct ns as [name s]. cbn [app flush_loop map flat_map].
    pose proof (flush_sink_split lw now (name, s)) as E; cbn [fst snd] in E.
    rewrite E, Hfail; reflexivity.
  - cbn [app flush_loop map flat_map].
    pose proof (flush_sink_split lw now (name, s)) as E; cbn [fst snd] in E.
    rewrite E, Hok, IH; cbn. now rewrite app_assoc.
Qed.






Lemma lookup_sink_flush_loop lw now name ss :
  lookup_sink name (fst (fst (flush_loop lw now ss))) = None <->
  lookup_sink name ss = None.
Proof.
  induction ss as [|[n s0] rest IH]; [reflexivity|].
  cbn [lookup_sink flush_loop].
  destruct (flush_sink lw now n s0) as [[s0' ops] go_on].
  destruct (flush_loop lw now rest) as [[rest' ops'] done] eqn:HL.
  cbn [fst] in IH.
  destruct go_on; cbn [fst lookup_sink]; destruct (String.eqb n name);
    try exact IH; try reflexivity; split; discriminate.
Qed.

Lemma flush_loop_no_AddIP lw now name ip ss :
  ~ In (OpAddIP name ip) (snd (fst (flush_loop lw now ss))).
Proof.
  induction ss as [|[n0 s0] rest IH]; [intros []|].
  cbn [flush_loop].
  assert (Hhere : forall s' ops b, flush_sink lw now n0 s0 = (s', ops, b) ->
            ~ In (OpAddIP name ip) ops).
  { unfold flush_sink. intros s' ops b.
    destruct (Dump (current s0)); [destruct (Marshal _);
      [destruct (io_Copy _ _) as [w1 [e0|]]; [|destruct (Sync w1)]|]|];
    intros H; injection H as <- <- <-; cbn; intuition discriminate. }
  destruct (flush_sink _ _ n0 s0) as [[s' ops] go_on] eqn:HF.
  specialize (Hhere _ _ _ eq_refl).
  destruct go_on; [|exact Hhere].
  destruct (flush_loop _ _ rest) as [[rest' ops'] done]. cbn [fst snd] in *.
  intros Hin. apply in_app_or in Hin as [Hin|Hin]; auto.
Qed.

Lemma writers_update_sink name ip ss :
  writers (update_sink name (add_to_sink ip) ss) = writers ss.
Proof.
  induction ss as [|[n s] rest IH]; [reflexivity|].
  cbn [update_sink]. destruct (String.eqb n name); cbn; [reflexivity|].
  unfold writers in IH. now rewrite IH.
Qed.

Lemma flush_loop_writes_come_from_sinks lw now ss n line :
  In (OpWrite n line) (snd (fst (flush_loop lw now ss))) ->
  exists s0 data jsonData,
    In (n, s0) ss /\
    Dump (current s0) = Ok data /\
    Marshal {| RecordingStart := lw; RecordingEnd := now; Recorded := data |} = Ok jsonData /\
    line = jsonData ++ [newline].
Proof.
  induction ss as [|[name s] rest IH]; [intros []|].
  cbn [flush_loop].
  assert (Hhere : forall s' ops b, flush_sink lw now name s = (s', ops, b) ->
            In (OpWrite n line) ops ->
            exists data jsonData, n = name /\ Dump (current s) = Ok data /\
              Marshal {| RecordingStart := lw; RecordingEnd := now; Recorded := data |}
                = Ok jsonData /\ line = jsonData ++ [newline]).
  { unfold flush_sink. intros s' ops b.
    destruct (Dump (current s)) as [data|e].
    - destruct (Marshal _) as [jsonData|e] eqn:HM.
      + destruct (io_Copy _ _) as [w1 [e|]].
        * intros H; injection H as <- <- <-.
          intros [H|[H|[H|[H|[]]]]]; try discriminate.
          injection H as <- <-. now exists data, jsonData.
        * destruct (Sync w1). intros H; injection H as <- <- <-.
          intros [H|[H|[H|[H|[H|[]]]]]]; try discriminate.
          injection H as <- <-. now exists data, jsonData.
      + intros H; injection H as <- <- <-.
        intros [H|[H|[H|[]]]]; discriminate.
    - intros H; injection H as <- <- <-. intros [H|[H|[]]]; discriminate. }
  destruct (flush_sink lw now name s) as [[s' ops] go_on] eqn:HF.
  specialize (Hhere _ _ _ eq_refl).
  destruct go_on.
  - destruct (flush_loop lw now rest) as [[rest' ops'] done]. cbn [fst snd] in *.
    intros Hin. apply in_app_or in Hin as [Hin|Hin].
    + destruct (Hhere Hin) as (data & json & -> & HD & HM & ->).
      exists s, data, json. repeat split; auto. now left.
    + destruct (IH Hin) as (s0 & data & json & Hin0 & HD & HM & ->).
      exists s0, data, json. repeat split; auto. now right.
  - cbn [fst snd]. intros Hin.
    destruct (Hhere Hin) as (data & json & -> & HD & HM & ->).
    exists s, data, json. repeat split; auto. now left.
Qed.

(** *** The claims on the sink cluster *)



(** C3. Flush before add.  When [lastWriteTime + writeInterval < now], a
    call [AddIPToSet name ip] first runs [WriteIPSetToDisk] on the
    cluster as it was, and only then looks the name up and inserts [ip]
    in the current set of the named sink.  The operations of the flush
    come first and do not depend on [ip]; every line written by the call
    holds the dump of a set as it was before the call; the writers are
    those the flush left; the insertion is the last operation.  For a
    name that is not registered the call panics once the flush is done. *)
Theorem AddIPToSet_flushes_before_adding
  (c : ClusterWriter) (name ipAddress : string) (now currentTime : Z) :
  lastWriteTime c + writeInterval c < now ->
  let f := WriteIPSetToDisk c currentTime in
  let r := AddIPToSet c name ipAddress now currentTime in
  (forall s, lookup_sink name (sinks c) = Some s ->
     snd r = Returned tt /\
     snd (fst r) = snd f ++ [OpAddIP name ipAddress] /\
     sinks (fst (fst r)) = update_sink name (add_to_sink ipAddress) (sinks (fst f))) /\
  (lookup_sink name (sinks c) = None ->
     snd r = Panicked "nil pointer dereference" /\ fst r = f) /\
  lastWriteTime (fst (fst r)) = lastWriteTime (fst f) /\
  writers (sinks (fst (fst r))) = writers (sinks (fst f)) /\
  ~ In (OpAddIP name ipAddress) (snd f) /\
  (forall n line, In (OpWrite n line) (snd (fst r)) ->
     exists s0 data jsonData,
       In (n, s0) (sinks c) /\
       Dump (current s0) = Ok data /\
       Marshal {| RecordingStart := lastWriteTime c;
                  RecordingEnd := currentTime;
                  Recorded := data |} = Ok jsonData /\
       line = jsonData ++ [newline]).
Proof.
  intros Hdue f r; subst f r.
  unfold AddIPToSet.
  apply Z.ltb_lt in Hdue; rewrite Hdue.
  pose proof (lookup_sink_flush_loop (lastWriteTime c) currentTime name (sinks c)) as HL.
  pose proof (flush_loop_writes_come_from_sinks (lastWriteTime c) currentTime (sinks c)) as HW.
  pose proof (flush_loop_no_AddIP (lastWriteTime c) currentTime name ipAddress (sinks c)) as HA.
  assert (HA' : ~ In (OpAddIP name ipAddress) (snd (WriteIPSetToDisk c currentTime))).
  { unfold WriteIPSetToDisk.
    destruct (flush_loop _ _ (sinks c)) as [[ss ops] done]; cbn [fst snd] in *.
    destruct done; cbn [snd]; [|exact HA].
    intros Hin. apply in_app_or in Hin as [Hin|[Hin|[]]]; [auto|discriminate]. }
  assert (HW' : forall n line, In (OpWrite n line) (snd (WriteIPSetToDisk c currentTime)) ->
            exists s0 data jsonData,
              In (n, s0) (sinks c) /\ Dump (current s0) = Ok data /\
              Marshal {| RecordingStart := lastWriteTime c; RecordingEnd := currentTime;
                         Recorded := data |} = Ok jsonData /\
              line = jsonData ++ [newline]).
  { unfold WriteIPSetToDisk.
    destruct (flush_loop _ _ (sinks c)) as [[ss ops] done]; cbn [fst snd] in *.
    destruct done; cbn [snd]; [|exact HW].
    intros n line Hin. apply HW.
    apply in_app_or in Hin as [Hin|[Hin|[]]]; [auto|discriminate]. }
  assert (HL' : lookup_sink name (sinks (fst (WriteIPSetToDisk c currentTime))) = None <->
                lookup_sink name (sinks c) = None).
  { unfold WriteIPSetToDisk.
    destruct (flush_loop _ _ (sinks c)) as [[ss ops] done]; cbn [fst snd] in *.
    destruct done; exact HL. }
  clear HL HW HA.
  destruct (WriteIPSetToDisk c currentTime) as [c1 ops]; cbn [fst snd] in *.
  destruct (lookup_sink name (sinks c1)) as [s1|] eqn:Hs1; cbn [fst snd sinks lastWriteTime].
  - split; [intros s _; repeat split|].
    split; [intros Hnone; apply HL' in Hnone; discriminate|].
    split; [reflexivity|]. split; [apply writers_update_sink|]. split; [exact HA'|].
    intros n line Hin. apply HW'.
    apply in_app_or in Hin as [Hin|[Hin|[]]]; [auto|discriminate].
  - split; [intros s Hs; rewrite (proj1 HL' eq_refl) in Hs; discriminate|].
    split; [intros _; split; reflexivity|].
    split; [reflexivity|]. split; [reflexivity|]. split; [exact HA'|exact HW'].
Qed.

(** *** The rest of the package: construction, and what the two
    operations keep *)

(** [ipsetsink.NewIPSetSink(key[:])]. *)
Variable NewIPSetSink : bytes -> IPSetSink.

(** [NewClusterWriter]: one sink for each entry of the [writers] map, every
    set built from the same key; [now] is what [time.Now()] returns. *)
Definition NewClusterWriter
  (writers : list (string * Writer)) (key : bytes) (writeInterval now : Z) : ClusterWriter :=
  {| sinks := map (fun nw => (fst nw, {| writer := snd nw; current := NewIPSetSink key |}))
                  writers;
     lastWriteTime := now;
     writeInterval := writeInterval |}.

(** [writers[name]]. *)
Fixpoint lookup_writer (name : string) (ws : list (string * Writer)) : option Writer :=
  match ws with
  | [] => None
  | (n, w) :: rest => if String.eqb n name then Some w else lookup_writer name rest
  end.

Lemma lookup_update_same name f ss s :
  lookup_sink name ss = Some s ->
  lookup_sink name (update_sink name f ss) = Some (f s).
Proof.
  induction ss as [|[n s0] rest IH]; [discriminate|].
  cbn [lookup_sink update_sink].
  destruct (String.eqb n name) eqn:E; cbn [lookup_sink]; rewrite E.
  - now intros [= ->].
  - exact IH.
Qed.

Lemma lookup_update_other name other f ss :
  other <> name ->
  lookup_sink other (update_sink name f ss) = lookup_sink other ss.
Proof.
  intros Hne. induction ss as [|[n s0] rest IH]; [reflexivity|].
  cbn [lookup_sink update_sink].
  destruct (String.eqb n name) eqn:E; cbn [lookup_sink].
  - apply String.eqb_eq in E; subst n.
    destruct (String.eqb name other) eqn:E'; [|reflexivity].
    apply String.eqb_eq in E'. congruence.
  - now rewrite IH.
Qed.

Lemma lookup_sink_NewClusterWriter name writers key interval now :
  lookup_sink name (sinks (NewClusterWriter writers key interval now)) =
  option_map (fun w => {| writer := w; current := NewIPSetSink key |})
             (lookup_writer name writers).
Proof.
  cbn [NewClusterWriter sinks].
  induction writers as [|[n w] rest IH]; [reflexivity|].
  cbn [map lookup_sink lookup_writer fst snd].
  now destruct (String.eqb n name).
Qed.

Lemma WriteIPSetToDisk_writes_come_from_sinks c currentTime n line :
  In (OpWrite n line) (snd (WriteIPSetToDisk c currentTime)) ->
  exists s0 data jsonData,
    In (n, s0) (sinks c) /\
    Dump (current s0) = Ok data /\
    Marshal {| RecordingStart := lastWriteTime c; RecordingEnd := currentTime;
               Recorded := data |} = Ok jsonData /\
    line = jsonData ++ [newline].
Proof.
  unfold WriteIPSetToDisk.
  pose proof (flush_loop_writes_come_from_sinks (lastWriteTime c) currentTime (sinks c) n line)
    as HW.
  destruct (flush_loop _ _ (sinks c)) as [[ss ops] done]; cbn [fst snd] in *.
  destruct done; cbn [snd]; [|exact HW].
  intros Hin. apply HW. apply in_app_or in Hin as [Hin|[Hin|[]]]; [auto|discriminate].
Qed.

Lemma flush_loop_keeps_shape lw now ss :
  Forall2 (fun old new =>
             fst new = fst old /\
             (current (snd new) = current (snd old) \/
              current (snd new) = Reset (current (snd old))))
          ss (fst (fst (flush_loop lw now ss))).
Proof.
  induction ss as [|[name s] rest IH]; [constructor|].
  cbn [flush_loop].
  assert (Hs : forall s' ops b, flush_sink lw now name s = (s', ops, b) ->
            current s' = current s \/ current s' = Reset (current s)).
  { unfold flush_sink. intros s' ops b.
    destruct (Dump (current s)); [destruct (Marshal _);
      [destruct (io_Copy _ _) as [w1 [e0|]]; [|destruct (Sync w1)]|]|];
    intros H; injection H as <- <- <-; cbn; auto. }
  destruct (flush_sink lw now name s) as [[s' ops] go_on].
  specialize (Hs _ _ _ eq_refl).
  destruct (flush_loop lw now rest) as [[rest' ops'] done]; cbn [fst] in IH.
  destruct go_on; cbn [fst].
  - constructor; [now split|exact IH].
  - constructor; [now split|].
    clear. induction rest as [|x rest IH]; constructor; auto.
Qed.

(** Within the interval [AddIPToSet] only inserts.  When the interval has
    not passed -- the test is strict, so also when [now] is exactly
    [lastWriteTime + writeInterval] -- a call on a registered name writes
    nothing, leaves [lastWriteTime] and every other sink alone, and the
    named sink afterwards holds the address in its current set, with its
    writer untouched. *)
Theorem AddIPToSet_within_interval
  (c : ClusterWriter) (name ipAddress : string) (now currentTime : Z) (s : sink) :
  now <= lastWriteTime c + writeInterval c ->
  lookup_sink name (sinks c) = Some s ->
  let r := AddIPToSet c name ipAddress now currentTime in
  snd r = Returned tt /\
  snd (fst r) = [OpAddIP name ipAddress] /\
  lastWriteTime (fst (fst r)) = lastWriteTime c /\
  writers (sinks (fst (fst r))) = writers (sinks c) /\
  lookup_sink name (sinks (fst (fst r)))
    = Some {| writer := writer s; current := AddIP (current s) ipAddress |} /\
  (forall other, other <> name ->
     lookup_sink other (sinks (fst (fst r))) = lookup_sink other (sinks c)).
Proof.
  intros Hnot Hlook r; subst r. unfold AddIPToSet.
  destruct (Z.ltb_spec (lastWriteTime c + writeInterval c) now) as [?|_]; [lia|].
  rewrite Hlook. cbn [fst snd sinks lastWriteTime].
  split; [reflexivity|]. split; [reflexivity|]. split; [reflexivity|].
  split; [apply writers_update_sink|]. split.
  - now rewrite (lookup_update_same _ _ _ _ Hlook).
  - intros other Hne. now apply lookup_update_other.
Qed.

(** A name that was never registered.  [AddIPToSet] panics exactly on the
    names that are not keys of [sinks]; nothing is inserted then, but a
    flush that was due has been done all the same. *)
Theorem AddIPToSet_panics_iff_unregistered
  (c : ClusterWriter) (name ipAddress : string) (now currentTime : Z) :
  let r := AddIPToSet c name ipAddress now currentTime in
  (lookup_sink name (sinks c) = None <-> snd r = Panicked "nil pointer dereference") /\
  (lookup_sink name (sinks c) <> None <-> snd r = Returned tt) /\
  (lookup_sink name (sinks c) = None ->
   fst r = if lastWriteTime c + writeInterval c <? now
           then WriteIPSetToDisk c currentTime
           else (c, [])).
Proof.
  cbv zeta. unfold AddIPToSet.
  assert (HL : lookup_sink name
                 (sinks (fst (if lastWriteTime c + writeInterval c <? now
                              then WriteIPSetToDisk c currentTime else (c, [])))) = None <->
               lookup_sink name (sinks c) = None).
  { destruct (_ <? _); [|reflexivity]. unfold WriteIPSetToDisk.
    pose proof (lookup_sink_flush_loop (lastWriteTime c) currentTime name (sinks c)) as HL.
    destruct (flush_loop _ _ (sinks c)) as [[ss ops] done]; cbn [fst] in HL.
    now destruct done. }
  destruct (if _ <? _ then _ else _) as [c1 ops]; cbn [fst] in HL.
  destruct (lookup_sink name (sinks c1)) as [s1|] eqn:Hs1; cbn [fst snd].
  - assert (Hreg : lookup_sink name (sinks c) <> None)
      by (intros Hn; apply HL in Hn; discriminate).
    split; [split; [intros Hn; contradiction|discriminate]|].
    split; [split; [reflexivity|intros _; exact Hreg]|].
    intros Hn; contradiction.
  - assert (Hun : lookup_sink name (sinks c) = None) by now apply HL.
    split; [split; [reflexivity|intros _; exact Hun]|].
    split; [split; [intros Hn; contradiction|discriminate]|].
    reflexivity.
Qed.

(** What a flush never does.  Whether it succeeds or returns early,
    [WriteIPSetToDisk] keeps the sinks and their names, in number and in
    order, and [writeInterval]; it leaves each current set as it was or
    resets it; and it leaves [lastWriteTime] as it was or sets it to the
    current time. *)
Theorem WriteIPSetToDisk_keeps_the_sinks (c : ClusterWriter) (currentTime : Z) :
  let r := WriteIPSetToDisk c currentTime in
  map fst (sinks (fst r)) = map fst (sinks c) /\
  writeInterval (fst r) = writeInterval c /\
  (lastWriteTime (fst r) = lastWriteTime c \/ lastWriteTime (fst r) = currentTime) /\
  Forall2 (fun old new =>
             fst new = fst old /\
             (current (snd new) = current (snd old) \/
              current (snd new) = Reset (current (snd old))))
          (sinks c) (sinks (fst r)).
Proof.
  cbv zeta. unfold WriteIPSetToDisk.
  pose proof (flush_loop_keeps_shape (lastWriteTime c) currentTime (sinks c)) as HS.
  destruct (flush_loop _ _ (sinks c)) as [[ss ops] done]; cbn [fst] in HS.
  assert (Hnames : map fst ss = map fst (sinks c)).
  { clear -HS. induction HS as [|old new l l' [Hn _] _ IH]; [reflexivity|].
    cbn. now rewrite Hn, IH. }
  destruct done; cbn [fst sinks writeInterval lastWriteTime]; auto.
Qed.

(** Windows follow one another.  After a flush at [t1] in which no sink
    failed, every line that a flush at [t2] writes is the entry that runs
    from [t1] to [t2] and records the dump of a set that the first flush
    reset. *)
Theorem WriteIPSetToDisk_windows_abut (c : ClusterWriter) (t1 t2 : Z) :
  Forall (fun ns => sink_fails (lastWriteTime c) t1 ns = false) (sinks c) ->
  let c1 := fst (WriteIPSetToDisk c t1) in
  lastWriteTime c1 = t1 /\
  forall n line,
    In (OpWrite n line) (snd (WriteIPSetToDisk c1 t2)) ->
    exists s0 data jsonData,
      In (n, s0) (sinks c) /\
      Dump (Reset (current s0)) = Ok data /\
      Marshal {| RecordingStart := t1; RecordingEnd := t2; Recorded := data |}
        = Ok jsonData /\
      line = jsonData ++ [newline].
Proof.
  intros Hall c1.
  assert (Hc1 : lastWriteTime c1 = t1 /\
                sinks c1 = map (flushed (lastWriteTime c) t1) (sinks c)).
  { subst c1. unfold WriteIPSetToDisk.
    rewrite (flush_loop_all_ok _ _ _ Hall). now cbn. }
  destruct Hc1 as [Ht1 Hsinks]. split; [exact Ht1|].
  intros n line Hin.
  destruct (WriteIPSetToDisk_writes_come_from_sinks _ _ _ _ Hin)
    as (s1 & data & jsonData & Hin1 & HD & HM & Hline).
  rewrite Hsinks in Hin1. apply in_map_iff in Hin1 as ([n0 s0] & Heq & Hin0).
  rewrite Forall_forall in Hall.
  destruct (flush_ops_ok _ _ _ (Hall _ Hin0)) as (_ & _ & Hcur).
  unfold flushed in Heq; cbn [fst snd] in Heq. injection Heq as <- <-.
  exists s0, data, jsonData. rewrite Ht1 in HM.
  unfold flushed in Hcur; cbn [fst snd] in Hcur. rewrite Hcur in HD. auto.
Qed.

(** A short write stops the flush.  A writer that takes fewer bytes than
    the line and reports no error counts as failed, with
    [io.ErrShortWrite]: the flush returns there, [lastWriteTime] keeps its
    value and the current set of that sink is not reset. *)
Theorem WriteIPSetToDisk_short_write
  (c : ClusterWriter) (currentTime : Z) (pre post : list (string * sink))
  (ns : string * sink) (data jsonData : bytes) (w' : Writer) (n : nat) :
  sinks c = pre ++ ns :: post ->
  Forall (fun x => sink_fails (lastWriteTime c) currentTime x = false) pre ->
  Dump (current (snd ns)) = Ok data ->
  Marshal {| RecordingStart := lastWriteTime c; RecordingEnd := currentTime;
             Recorded := data |} = Ok jsonData ->
  Write (writer (snd ns)) (jsonData ++ [newline]) = (w', n, None) ->
  (n < List.length jsonData + 1)%nat ->
  let r := WriteIPSetToDisk c currentTime in
  lastWriteTime (fst r) = lastWriteTime c /\
  In (OpLogError io_ErrShortWrite) (snd r) /\
  sinks (fst r) =
    map (flushed (lastWriteTime c) currentTime) pre
      ++ (fst ns, {| writer := w'; current := current (snd ns) |}) :: post.
Proof.
  clear AddIP NewIPSetSink.
  intros Hs Hpre HD HM HW Hshort r; subst r.
  assert (HF : flush_sink (lastWriteTime c) currentTime (fst ns) (snd ns) =
            ({| writer := w'; current := current (snd ns) |},
             [OpDump (fst ns); OpMarshal (fst ns);
              OpWrite (fst ns) (jsonData ++ [newline]); OpLogError io_ErrShortWrite],
             false)).
  { unfold flush_sink. rewrite HD, HM. unfold io_Copy. rewrite HW.
    rewrite length_app; cbn [List.length].
    destruct (Nat.eqb_spec n (List.length jsonData + 1)) as [?|_]; [lia|reflexivity]. }
  assert (Hfail : sink_fails (lastWriteTime c) currentTime ns = true)
    by (unfold sink_fails; now rewrite HF).
  unfold WriteIPSetToDisk.
  rewrite Hs, (flush_loop_first_failure _ _ _ _ post Hpre Hfail).
  cbn [fst snd lastWriteTime sinks].
  unfold flushed at 2, flush_ops. rewrite HF. cbn [fst snd].
  split; [reflexivity|]. split; [|reflexivity].
  apply in_or_app; right. cbn; tauto.
Qed.

(** A fresh cluster.  Right after [NewClusterWriter], while the interval
    has not passed, [AddIPToSet] on a name of the [writers] map writes
    nothing and leaves that sink with its writer and with the address
    added to a new set built from the key; on any other name it panics. *)
Theorem NewClusterWriter_then_AddIPToSet
  (writers : list (string * Writer)) (key : bytes) (interval t0 : Z)
  (name ipAddress : string) (now currentTime : Z) :
  now <= t0 + interval ->
  let r := AddIPToSet (NewClusterWriter writers key interval t0) name ipAddress
             now currentTime in
  map fst (sinks (NewClusterWriter writers key interval t0)) = map fst writers /\
  (forall w, lookup_writer name writers = Some w ->
     snd r = Returned tt /\
     snd (fst r) = [OpAddIP name ipAddress] /\
     lookup_sink name (sinks (fst (fst r)))
       = Some {| writer := w; current := AddIP (NewIPSetSink key) ipAddress |}) /\
  (lookup_writer name writers = None ->
     snd r = Panicked "nil pointer dereference" /\ snd (fst r) = []).
Proof.
  intros Hnot r; subst r.
  pose proof (lookup_sink_NewClusterWriter name writers key interval t0) as HL.
  split.
  { cbn [NewClusterWriter sinks]. rewrite map_map. cbn [fst]. reflexivity. }
  unfold AddIPToSet. cbn [lastWriteTime writeInterval NewClusterWriter] in *.
  destruct (Z.ltb_spec (t0 + interval) now) as [?|_]; [lia|].
  fold (NewClusterWriter writers key interval t0). rewrite HL.
  split.
  - intros w Hw. rewrite Hw. cbn [option_map fst snd sinks].
    split; [reflexivity|]. split; [reflexivity|].
    rewrite (lookup_update_same _ _ _ _
               (eq_trans HL (f_equal (option_map _) Hw))). reflexivity.
  - intros Hw. rewrite Hw. cbn. split; reflexivity.
Qed.

End Cluster.

(** *** A concrete cluster

    A set that is the list of the addresses it was given, dumped as their
    lengths; an in-memory writer that can be made to refuse writes or to
    fail on [Sync]; entries marshalled as their dump.  The instance shows
    that the hypotheses of the theorems above can be met, with and without
    failures. *)

Definition demoSet : Type := list string.

Definition demoDump (l : demoSet) : result bytes :=
  Ok (map (fun ip => if Nat.eqb (String.length ip) 0 then x00 else x01) l).

Definition demoReset (_ : demoSet) : demoSet := [].

Definition demoAddIP (l : demoSet) (ip : string) : demoSet := l ++ [ip].

Record demoWriter : Type := {
  refuses_writes : bool;
  fails_on_sync : bool;
  written : bytes
}.

Definition demoWrite (w : demoWriter) (data : bytes) : demoWriter * nat * option error :=
  if refuses_writes w then (w, 0%nat, Some "disk full"%string)
  else ({| refuses_writes := false;
           fails_on_sync := fails_on_sync w;
           written := written w ++ data |}, List.length data, None).

Definition demoSync (w : demoWriter) : demoWriter * option error :=
  (w, if fails_on_sync w then Some "sync failed"%string else None).

Definition demoMarshal (e : SinkEntry) : result bytes := Ok (Recorded e).

Definition demoSink (refuse sync : bool) (ips : list string) : sink demoSet demoWriter :=
  {| writer := {| refuses_writes := refuse; fails_on_sync := sync; written := [] |};
     current := ips |}.


(** Two sinks; [Sync] fails on the first. *)
Definition demoClusterSync : ClusterWriter demoSet demoWriter :=
  {| sinks := [("a"%string, demoSink false true ["1.2.3.4"%string]);
               ("b"%string, demoSink false false [])];
     lastWriteTime := 0;
     writeInterval := 60 |}.



Lemma AddIPToSet_flushes_before_adding_witness :
  let r := AddIPToSet demoSet demoDump demoReset demoAddIP demoWriter demoWrite demoSync
             demoMarshal demoClusterSync "a" "8.8.8.8" 121 122 in
  snd r = Returned tt /\
  snd (fst r)
    = [OpDump "a"; OpMarshal "a"; OpWrite "a" [x01; x0a]; OpSync "a"; OpReset "a";
       OpDump "b"; OpMarshal "b"; OpWrite "b" [x0a]; OpSync "b"; OpReset "b";
       OpSetLastWriteTime 122; OpAddIP "a" "8.8.8.8"] /\
  lookup_sink _ _ "a" (sinks _ _ (fst (fst r)))
    = Some {| writer := {| refuses_writes := false; fails_on_sync := true;
                           written := [x01; x0a] |};
              current := ["8.8.8.8"%string] |}.
Proof.
  destruct (AddIPToSet_flushes_before_adding demoSet demoDump demoReset demoAddIP
              demoWriter demoWrite demoSync demoMarshal demoClusterSync
              "a" "8.8.8.8" 121 122 eq_refl)
    as (Hreg & _).
  destruct (Hreg (demoSink false true ["1.2.3.4"%string]) eq_refl)
    as (Hret & Hops & Hsinks).
  cbv zeta. split; [exact Hret|]. split; [exact Hops|].
  rewrite Hsinks. reflexivity.
Defined.

(** A writer that takes one byte of what it is given and reports no
    error. *)
Definition demoWriteShort (w : demoWriter) (data : bytes) : demoWriter * nat * option error :=
  ({| refuses_writes := refuses_writes w;
      fails_on_sync := fails_on_sync w;
      written := written w ++ firstn 1 data |}, 1%nat, None).

Definition demoNewIPSetSink (_ : bytes) : demoSet := [].

Definition demoWriters : list (string * demoWriter) :=
  [("demo"%string, {| refuses_writes := false; fails_on_sync := false; written := [] |})].

Lemma AddIPToSet_within_interval_witness :
  let r := AddIPToSet demoSet demoDump demoReset demoAddIP demoWriter demoWrite demoSync
             demoMarshal demoClusterSync "b" "8.8.8.8" 60 61 in
  snd (fst r) = [OpAddIP "b" "8.8.8.8"] /\
  lookup_sink _ _ "b" (sinks _ _ (fst (fst r)))
    = Some {| writer := {| refuses_writes := false; fails_on_sync := false;
                           written := [] |};
              current := ["8.8.8.8"%string] |}.
Proof.
  destruct (AddIPToSet_within_interval demoSet demoDump demoReset demoAddIP demoWriter
              demoWrite demoSync demoMarshal demoClusterSync "b" "8.8.8.8" 60 61
              (demoSink false false []))
    as (_ & Hops & _ & _ & Hlook & _).
  - cbn. lia.
  - reflexivity.
  - cbv zeta. split; [exact Hops|exact Hlook].
Defined.

Lemma WriteIPSetToDisk_windows_abut_witness :
  exists s0 data jsonData,
    In ("a"%string, s0) (sinks _ _ demoClusterSync) /\
    demoDump (demoReset (current _ _ s0)) = Ok data /\
    demoMarshal {| RecordingStart := 100; RecordingEnd := 200; Recorded := data |}
      = Ok jsonData /\
    [x0a] = jsonData ++ [newline].
Proof.
  apply (proj2 (WriteIPSetToDisk_windows_abut demoSet demoDump demoReset demoWriter
                  demoWrite demoSync demoMarshal demoClusterSync 100 200
                  ltac:(repeat constructor)) "a"%string [x0a]).
  cbn. tauto.
Defined.

Lemma WriteIPSetToDisk_short_write_witness :
  let r := WriteIPSetToDisk demoSet demoDump demoReset demoWriter demoWriteShort demoSync
             demoMarshal demoClusterSync 200 in
  lastWriteTime _ _ (fst r) = 0 /\
  In (OpLogError io_ErrShortWrite) (snd r).
Proof.
  destruct (WriteIPSetToDisk_short_write demoSet demoDump demoReset demoWriter
              demoWriteShort demoSync demoMarshal demoClusterSync 200
              [] [("b"%string, demoSink false false [])]
              ("a"%string, demoSink false true ["1.2.3.4"%string])
              [x01] [x01]
              {| refuses_writes := false; fails_on_sync := true; written := [x01] |}
              1%nat eq_refl (Forall_nil _) eq_refl eq_refl eq_refl)
    as (Htime & Hlog & _).
  - cbn. lia.
  - cbv zeta. split; [exact Htime|exact Hlog].
Defined.

Lemma NewClusterWriter_then_AddIPToSet_witness :
  let r := AddIPToSet demoSet demoDump demoReset demoAddIP demoWriter demoWrite demoSync
             demoMarshal
             (NewClusterWriter demoSet demoWriter demoNewIPSetSink demoWriters [x2a] 60 0)
             "demo" "1.2.3.4" 1 2 in
  snd r = Returned tt /\
  snd (fst r) = [OpAddIP "demo" "1.2.3.4"] /\
  lookup_sink _ _ "demo" (sinks _ _ (fst (fst r)))
    = Some {| writer := {| refuses_writes := false; fails_on_sync := false;
                           written := [] |};
              current := ["1.2.3.4"%string] |}.
Proof.
  destruct (NewClusterWriter_then_AddIPToSet demoSet demoDump demoReset demoAddIP
              demoWriter demoWrite demoSync demoMarshal demoNewIPSetSink
              demoWriters [x2a] 60 0 "demo" "1.2.3.4" 1 2)
    as (_ & Hreg & _).
  - lia.
  - exact (Hreg _ eq_refl).
Defined.

End SinkCluster.

(** ** The proxy's main package ([proxy/snowflake.go]) *)

Module ProxyMain.
Import Go.
Local Open Scope Z_scope.

(** *** Readers *)

Definition io_EOF : error := "EOF"%string.

(** The [io.Reader] interface: [Read r n] is a call with a buffer of [n]
    bytes; it gives the bytes delivered, the error, and the reader
    afterwards. *)
Class io_Reader (R : Type) : Type :=
  Read : R -> nat -> bytes * option error * R.

(** A reader given by the script of what its successive reads deliver:
    each item is a run of bytes and the error that comes with the last of
    them (nil to go on).  A buffer shorter than the run gets its first
    bytes, without the error.  Once the script is used up, [Read] returns
    [(0, io.EOF)]. *)
Definition Reader : Type := list (bytes * option error).

#[export] Instance Reader_Read : io_Reader Reader := fun r n =>
  match r with
  | [] => ([], Some io_EOF, [])
  | (chunk, err) :: rest =>
    if (List.length chunk <=? n)%nat then (chunk, err, rest)
    else (firstn n chunk, None, (skipn n chunk, err) :: rest)
  end.

(** [io.LimitedReader]. *)
Record LimitedReader (R : Type) : Type := {
  LR_R : R;
  LR_N : Z
}.
Arguments LR_R {R} l.
Arguments LR_N {R} l.

#[export] Instance LimitedReader_Read {R} `{io_Reader R} : io_Reader (LimitedReader R) :=
  fun l n =>
    if LR_N l <=? 0 then ([], Some io_EOF, l)
    else
      let n := if Z.of_nat n >? LR_N l then Z.to_nat (LR_N l) else n in
      let '(data, err, r') := Read (LR_R l) n in
      (data, err, {| LR_R := r'; LR_N := LR_N l - Z.of_nat (List.length data) |}).

(** [ioutil.ReadAll]: read into the free room of a growing buffer until a
    read returns an error; [io.EOF] is reported as nil.  [room n] is the
    free room when the buffer holds [n] bytes.  The loop has no bound of
    its own, so the model counts its iterations down from [fuel]; [None]
    is a loop still running when the count is used up. *)
Fixpoint readAll_loop {R} `{io_Reader R} (room : nat -> nat) (fuel : nat) (r : R) (b : bytes)
  : option (bytes * option error) :=
  match fuel with
  | O => None
  | S fuel' =>
    let '(data, err, r') := Read r (room (List.length b)) in
    let b := b ++ data in
    match err with
    | Some e => Some (b, if String.eqb e io_EOF then None else Some e)
    | None => readAll_loop room fuel' r' b
    end
  end.

(** Every read that returns no error uses up a byte or an item of the
    script, so this many iterations are enough. *)
Fixpoint weight (r : Reader) : nat :=
  match r with
  | [] => 0
  | (chunk, _) :: rest => S (List.length chunk + weight rest)
  end.

(** [int64] arithmetic wraps around. *)
Definition wrap64 (z : Z) : Z := (z + 2 ^ 63) mod 2 ^ 64 - 2 ^ 63.

Definition readLimit : Z := 100000.

(** [limitedRead].  [p[0:limit]] panics when [limit] is negative. *)
Definition limitedRead (room : nat -> nat) (r : Reader) (limit : Z)
  : outcome (bytes * option error) :=
  match readAll_loop room (S (weight r)) {| LR_R := r; LR_N := wrap64 (limit + 1) |} [] with
  | None => Blocked
  | Some (p, Some err) => Returned (p, Some err)
  | Some (p, None) =>
    if Z.of_nat (List.length p) =? wrap64 (limit + 1) then
      if (0 <=? limit) && (limit <=? Z.of_nat (List.length p))
      then Returned (firstn (Z.to_nat limit) p, Some io_ErrUnexpectedEOF)
      else Panicked "slice bounds out of range"
    else Returned (p, None)
  end.

(** What the stream holds: the bytes up to its first error or its end. *)
Fixpoint content (r : Reader) : bytes :=
  match r with
  | [] => []
  | (chunk, None) :: rest => chunk ++ content rest
  | (chunk, Some _) :: _ => chunk
  end.

(** The error that ends the stream: nil when it ends in [io.EOF]. *)
Fixpoint final_error (r : Reader) : option error :=
  match r with
  | [] => None
  | (_, None) :: rest => final_error rest
  | (_, Some e) :: _ => if String.eqb e io_EOF then None else Some e
  end.

(** What at most [k] bytes read from the script amount to, whatever the
    buffers: the bytes, and the error of the read that ends them. *)
Fixpoint take_stream (r : Reader) (k : nat) : bytes * option error :=
  match k, r with
  | O, _ => ([], None)
  | _, [] => ([], None)
  | _, (chunk, err) :: rest =>
    if (List.length chunk <=? k)%nat then
      match err with
      | None =>
        let '(d, e) := take_stream rest (k - List.length chunk) in (chunk ++ d, e)
      | Some e => (chunk, if String.eqb e io_EOF then None else Some e)
      end
    else (firstn k chunk, None)
  end.

(** *** The cadence of [pollOffer] *)

(** [pollInterval = 5 * time.Second], in nanoseconds. *)
Definition pollInterval : Z := 5 * 1000000000.

(** The head of the loop of [pollOffer]: [now] is the clock at the top of
    the iteration.  [time.Sleep(timeOfNextPoll.Sub(now))] returns at once
    for a duration that is not positive, so the time slept is the first
    component; the second is [timeOfNextPoll] as the iteration leaves
    it. *)
Definition schedule (timeOfNextPoll now : Z) : Z * Z :=
  let slept := Z.max 0 (timeOfNextPoll - now) in
  let timeOfNextPoll := timeOfNextPoll + pollInterval in
  let timeOfNextPoll := if timeOfNextPoll <? now then now else timeOfNextPoll in
  (slept, timeOfNextPoll).

(** What one round trip to the broker comes to. *)
Inductive pollResponse : Type :=
| EncodeError (e : error)
| TransportError (e : error)
| BadStatus (code : Z)
| ReadError (e : error)
| DecodeError (e : error)
| EmptyOffer
| BadOffer (e : error)
| GoodOffer (sdp : string).

(** One iteration of the loop, as the supervisor sees it. *)
Record pollIteration : Type := {
  it_now : Z;
  it_slept : Z;
  it_started : Z;
  it_timeOfNextPoll : Z
}.

(** The loop of [pollOffer] against a script of round trips, each with
    the time the rest of the iteration takes after the sleep.  The result
    is [Some (Some sdp)] for an offer, [Some None] for the nil of the
    error returns, and [None] while the loop is still polling when the
    script ends. *)
Fixpoint pollOffer_loop (timeOfNextPoll now : Z) (script : list (Z * pollResponse))
  : list pollIteration * option (option string) :=
  match script with
  | [] => ([], None)
  | (took, resp) :: rest =>
    let '(slept, next) := schedule timeOfNextPoll now in
    let it := {| it_now := now; it_slept := slept; it_started := now + slept;
                 it_timeOfNextPoll := next |} in
    match resp with
    | EncodeError _ | DecodeError _ | BadOffer _ => ([it], Some None)
    | GoodOffer sdp => ([it], Some (Some sdp))
    | TransportError _ | BadStatus _ | ReadError _ | EmptyOffer =>
      let '(its, r) := pollOffer_loop next (now + slept + took) rest in
      (it :: its, r)
    end
  end.

(** [timeOfNextPoll := time.Now()] and then the loop. *)
Definition pollOffer (start : Z) (script : list (Z * pollResponse))
  : list pollIteration * option (option string) :=
  pollOffer_loop start start script.

(** *** One supervised session *)

Inductive event : Type :=
| EvGetToken
| EvRetToken
| EvPcClose
| EvConnClose
| EvWsClose
| EvCopyLoop
| EvLog (msg : string).

Definition is_RetToken (e : event) : bool :=
  match e with EvRetToken => true | _ => false end.

Definition is_GetToken (e : event) : bool :=
  match e with EvGetToken => true | _ => false end.

Definition releases (tr : list event) : nat := List.length (filter is_RetToken tr).
Definition acquisitions (tr : list event) : nat := List.length (filter is_GetToken tr).

(** [tokens] is a buffered channel of capacity [capacity]; its state is
    the number of tokens waiting in it.  [getToken] receives one and
    blocks on an empty channel; [retToken] sends one and blocks on a full
    channel. *)
Definition getToken (tokens : nat) : outcome nat :=
  match tokens with
  | O => Blocked
  | S n => Returned n
  end.

Definition retToken (capacity tokens : nat) : outcome nat :=
  if (tokens <? capacity)%nat then Returned (S tokens) else Blocked.

(** The channel after a run of events. *)
Fixpoint replay_tokens (capacity : nat) (tr : list event) (tokens : nat) : outcome nat :=
  match tr with
  | [] => Returned tokens
  | EvGetToken :: rest =>
    match getToken tokens with
    | Returned t => replay_tokens capacity rest t
    | stuck => stuck
    end
  | EvRetToken :: rest =>
    match retToken capacity tokens with
    | Returned t => replay_tokens capacity rest t
    | stuck => stuck
    end
  | _ :: rest => replay_tokens capacity rest tokens
  end.

(** A [*webrtc.PeerConnection] that is not nil. *)
Inductive PeerConnection : Type := ThePeerConnection.

(** What the world outside the supervisor does during one session: the
    broker, the WebRTC library, the client and the relay. *)
Record session_env : Type := {
  env_pollOffer : option string;
  env_NewPeerConnection : option error;
  env_SetRemoteDescription : option error;
  env_CreateAnswer : option error;
  env_SetLocalDescription : option error;
  env_pc_Close : option error;
  env_sendAnswer : option error;
  env_dataChannelOpens : bool;
  env_relayURL_parses : bool;
  env_Dial : option error
}.

(** [datachannelHandler], started by the [OnDataChannel] callback.  The
    deferred calls run last in, first out: [wsConn.Close], [retToken],
    [conn.Close].  [log.Fatalf] ends the process, and no deferred call
    runs. *)
Definition datachannelHandler (env : session_env) : list event * outcome unit :=
  if env_relayURL_parses env then
    match env_Dial env with
    | Some e => ([EvLog "error dialing relay"; EvRetToken; EvConnClose], Returned tt)
    | None =>
      ([EvLog "connected to relay"; EvCopyLoop; EvLog "datachannelHandler ends";
        EvWsClose; EvRetToken; EvConnClose], Returned tt)
    end
  else ([EvLog "invalid relay url"], Panicked "log.Fatalf").

(** [pc.Close()] where the caller logs the error it returns. *)
Definition pcClose (env : session_env) (msg : string) : list event :=
  EvPcClose :: match env_pc_Close env with
               | Some _ => [EvLog msg]
               | None => []
               end.

(** [makePeerConnectionFromOffer]: the pair [(pc, err)] it returns, either
    of which may be nil.  In the last failure branch [err] is assigned the
    result of [pc.Close()] before it is tested and returned. *)
Definition makePeerConnectionFromOffer (env : session_env)
  : list event * (option PeerConnection * option error) :=
  match env_NewPeerConnection env with
  | Some e => ([], (None, Some ("accept: NewPeerConnection: " ++ e)%string))
  | None =>
    match env_SetRemoteDescription env with
    | Some e =>
      (pcClose env "unable to call pc.Close after pc.SetRemoteDescription",
       (None, Some ("accept: SetRemoteDescription: " ++ e)%string))
    | None =>
      let evs := [EvLog "sdp offer successfully received."; EvLog "Generating answer..."] in
      match env_CreateAnswer env with
      | Some e =>
        (evs ++ pcClose env "ICE gathering has generated an error when calling pc.Close",
         (None, Some e))
      | None =>
        match env_SetLocalDescription env with
        | Some _ =>
          let err := env_pc_Close env in
          (evs ++ pcClose env "pc.Close after setting local description returned",
           (None, err))
        | None => (evs, (Some ThePeerConnection, None))
        end
      end
    end
  end.

(** [runSession].  [broker.sendAnswer(sid, pc)] starts with
    [pc.LocalDescription()], a nil dereference when [pc] is nil.  The
    [select] takes the [dataChan] branch when the client opens a data
    channel within [dataChannelTimeout]; the handler that the callback
    started then runs to its end, and its events are listed after those
    of [runSession].  The callback is taken to fire in that case only: a
    data channel that opens while the answer is still being sent, or
    between the timeout and [pc.Close()], is outside the model. *)
Definition runSession (env : session_env) : list event * outcome unit :=
  match env_pollOffer env with
  | None => ([EvLog "bad offer from broker"; EvRetToken], Returned tt)
  | Some offer =>
    let '(evs, (pc, err)) := makePeerConnectionFromOffer env in
    match err with
    | Some e => (evs ++ [EvLog "error making WebRTC connection"; EvRetToken], Returned tt)
    | None =>
      match pc with
      | None => (evs, Panicked "nil pointer dereference")
      | Some _ =>
        match env_sendAnswer env with
        | Some e =>
          (evs ++ [EvLog "error sending answer to client through broker"]
               ++ pcClose env "error calling pc.Close" ++ [EvRetToken], Returned tt)
        | None =>
          if env_dataChannelOpens env then
            let '(hevs, r) := datachannelHandler env in
            (evs ++ [EvLog "Connection successful."] ++ hevs, r)
          else
            (evs ++ [EvLog "Timed out waiting for client to open data channel."]
                 ++ pcClose env "error calling pc.Close" ++ [EvRetToken], Returned tt)
        end
      end
    end
  end.

(** One turn of the loop of [main]: [getToken()] and then the session. *)
Definition supervise (env : session_env) : list event * outcome unit :=
  let '(evs, r) := runSession env in (EvGetToken :: evs, r).

(** The session in which everything works but [SetLocalDescription],
    after which [pc.Close()] succeeds. *)
Definition localDescriptionFails : session_env :=
  {| env_pollOffer := Some "v=0"%string;
     env_NewPeerConnection := None;
     env_SetRemoteDescription := None;
     env_CreateAnswer := None;
     env_SetLocalDescription := Some "InvalidStateError"%string;
     env_pc_Close := None;
     env_sendAnswer := None;
     env_dataChannelOpens := true;
     env_relayURL_parses := true;
     env_Dial := None |}.

(** *** The first [webRTCConn] ([snowflake.go]) *)

(** The data channel is the list of the messages sent on it; the errors
    of [Send] are dropped by [Write].  [conn_log] lists the calls made on
    the peer connection. *)
Record webRTCConn : Type := {
  conn_dc : option (list bytes);
  conn_once : bool;
  conn_pc_Close : option error;
  conn_log : list event
}.

(** [Write]: the lock is free whenever a method starts, since every
    method releases it before it returns. *)
Definition Write (c : webRTCConn) (b : bytes) : webRTCConn * (Z * option error) :=
  let c' :=
    match conn_dc c with
    | Some sent =>
      {| conn_dc := Some (sent ++ [b]); conn_once := conn_once c;
         conn_pc_Close := conn_pc_Close c; conn_log := conn_log c |}
    | None => c
    end in
  (c', (Z.of_nat (List.length b), None)).

(** [Close]: [c.once.Do(func() { err = c.pc.Close() })]. *)
Definition Close (c : webRTCConn) : webRTCConn * option error :=
  if conn_once c then (c, None)
  else
    ({| conn_dc := conn_dc c; conn_once := true;
        conn_pc_Close := conn_pc_Close c; conn_log := conn_log c ++ [EvPcClose] |},
     conn_pc_Close c).

(** [n] calls of [Close] in a row, with what each returns. *)
Fixpoint Close_times (n : nat) (c : webRTCConn) : webRTCConn * list (option error) :=
  match n with
  | O => (c, [])
  | S n' =>
    let '(c1, err) := Close c in
    let '(c2, errs) := Close_times n' c1 in
    (c2, err :: errs)
  end.

(** *** Lemmas on readers *)

Lemma firstn_split_at {A} (m k : nat) (c : list A) :
  (m <= k)%nat -> (m <= List.length c)%nat ->
  firstn k c = firstn m c ++ firstn (k - m) (skipn m c).
Proof.
  intros Hmk Hm.
  rewrite <- (firstn_skipn m c) at 1.
  rewrite firstn_app, firstn_firstn, Nat.min_r by lia.
  now rewrite length_firstn, Nat.min_l by lia.
Qed.

Lemma take_stream_0 r : take_stream r 0 = ([], None).
Proof. now destruct r. Qed.

Lemma take_stream_split (m k : nat) chunk err rest :
  (m <= k)%nat -> (m < List.length chunk)%nat ->
  take_stream ((chunk, err) :: rest) k =
  let '(d, e) := take_stream ((skipn m chunk, err) :: rest) (k - m) in
  (firstn m chunk ++ d, e).
Proof.
  intros Hmk Hm.
  assert (Hlen : List.length (skipn m chunk) = (List.length chunk - m)%nat)
    by apply length_skipn.
  destruct k as [|k'].
  { assert (m = 0%nat) as -> by lia. reflexivity. }
  destruct (S k' - m)%nat as [|j] eqn:Hj.
  - assert (m = S k') as -> by lia.
    rewrite take_stream_0, app_nil_r. cbn [take_stream].
    destruct (Nat.leb_spec (List.length chunk) (S k')) as [?|_]; [lia|reflexivity].
  - cbn [take_stream]. rewrite Hlen.
    destruct (Nat.leb_spec (List.length chunk) (S k')) as [Hfit|Hcut].
    + destruct (Nat.leb_spec (List.length chunk - m) (S j)) as [_|?]; [|lia].
      replace (S j - (List.length chunk - m))%nat with (S k' - List.length chunk)%nat by lia.
      destruct err as [e|].
      * now rewrite firstn_skipn.
      * destruct (take_stream rest _) as [d e]; cbn.
        now rewrite (app_assoc (firstn m chunk)), firstn_skipn.
    + destruct (Nat.leb_spec (List.length chunk - m) (S j)) as [?|_]; [lia|].
      f_equal. rewrite <- Hj. apply firstn_split_at; lia.
Qed.

Lemma readAll_loop_limited (room : nat -> nat) :
  (forall n, 0 < room n)%nat ->
  forall fuel (r : Reader) (k : nat) (b : bytes),
    (weight r < fuel)%nat ->
    readAll_loop room fuel {| LR_R := r; LR_N := Z.of_nat k |} b =
    Some (b ++ fst (take_stream r k), snd (take_stream r k)).
Proof.
  intros Hroom. induction fuel as [|fuel IH]; intros r k b Hw; [lia|].
  cbn [readAll_loop]. unfold Read at 1, LimitedReader_Read. cbn [LR_N LR_R].
  destruct k as [|k'].
  - cbn. now rewrite take_stream_0.
  - destruct (Z.leb_spec (Z.of_nat (S k')) 0) as [?|_]; [lia|].
    set (m := if Z.of_nat (room (List.length b)) >? Z.of_nat (S k')
              then Z.to_nat (Z.of_nat (S k')) else room (List.length b)).
    assert (Hm : (1 <= m <= S k')%nat).
    { subst m. specialize (Hroom (List.length b)).
      destruct (Z.gtb_spec (Z.of_nat (room (List.length b))) (Z.of_nat (S k'))); lia. }
    clearbody m.
    destruct r as [|[chunk err] rest].
    + cbn. now rewrite app_nil_r.
    + unfold Read, Reader_Read.
      destruct (Nat.leb_spec (List.length chunk) m) as [Hfit|Hcut].
      * cbn [take_stream].
        destruct (Nat.leb_spec (List.length chunk) (S k')) as [_|?]; [|lia].
        destruct err as [e|]; [reflexivity|].
        replace (Z.of_nat (S k') - Z.of_nat (List.length chunk))
          with (Z.of_nat (S k' - List.length chunk)) by lia.
        rewrite IH by (cbn [weight] in Hw; lia).
        destruct (take_stream rest _) as [d e]; cbn [fst snd].
        now rewrite app_assoc.
      * replace (Z.of_nat (S k') - Z.of_nat (List.length (firstn m chunk)))
          with (Z.of_nat (S k' - m)) by (rewrite length_firstn; lia).
        rewrite IH by (cbn [weight] in *; rewrite length_skipn; lia).
        rewrite (take_stream_split m (S k') chunk err rest) by lia.
        destruct (take_stream _ (S k' - m)) as [d e]; cbn [fst snd].
        now rewrite app_assoc.
Qed.

Lemma take_stream_length r : forall k, (List.length (fst (take_stream r k)) <= k)%nat.
Proof.
  induction r as [|[chunk err] rest IH]; intros [|k']; cbn [take_stream fst List.length];
    try lia.
  destruct (Nat.leb_spec (List.length chunk) (S k')) as [Hfit|Hcut].
  - destruct err as [e|]; [cbn; lia|].
    specialize (IH (S k' - List.length chunk)%nat).
    destruct (take_stream rest _) as [d e]; cbn [fst] in *.
    rewrite length_app. lia.
  - cbn [fst]. rewrite length_firstn. lia.
Qed.

Lemma take_stream_prefix r : forall k,
  exists tail, content r = fst (take_stream r k) ++ tail.
Proof.
  induction r as [|[chunk err] rest IH]; intros [|k']; cbn [take_stream fst content];
    try (eexists; reflexivity).
  destruct (Nat.leb_spec (List.length chunk) (S k')) as [Hfit|Hcut].
  - destruct err as [e|]; [exists []; cbn; now rewrite app_nil_r|].
    destruct (IH (S k' - List.length chunk)%nat) as [tail Ht].
    destruct (take_stream rest _) as [d e]; cbn [fst] in *.
    exists tail. now rewrite Ht, app_assoc.
  - cbn [fst]. destruct err as [e|].
    + exists (skipn (S k') chunk). now rewrite firstn_skipn.
    + exists (skipn (S k') chunk ++ content rest).
      now rewrite app_assoc, firstn_skipn.
Qed.

(** A stream shorter than the bound is read whole, with its own error. *)
Lemma take_stream_short r : forall k,
  (List.length (content r) < k)%nat ->
  take_stream r k = (content r, final_error r).
Proof.
  induction r as [|[chunk err] rest IH]; intros [|k'] Hlt; try (cbn in Hlt; lia);
    [reflexivity|].
  cbn [take_stream content final_error] in *.
  destruct err as [e|].
  - destruct (Nat.leb_spec (List.length chunk) (S k')) as [_|?]; [reflexivity|lia].
  - rewrite length_app in Hlt.
    destruct (Nat.leb_spec (List.length chunk) (S k')) as [_|?]; [|lia].
    now rewrite IH by lia.
Qed.

(** A stream that holds [k] bytes or more, and no failure with the [k]th,
    is cut after [k] bytes. *)
Lemma take_stream_long r : forall k,
  (k <= List.length (content r))%nat ->
  (k < List.length (content r))%nat \/ final_error r = None ->
  take_stream r k = (firstn k (content r), None).
Proof.
  induction r as [|[chunk err] rest IH]; intros [|k'] Hle Hok;
    try reflexivity; try (cbn in Hle; lia).
  cbn [take_stream content final_error] in *.
  destruct err as [e|].
  - destruct (Nat.leb_spec (List.length chunk) (S k')) as [Hfit|Hcut]; [|reflexivity].
    destruct Hok as [?|Hok]; [lia|].
    rewrite Hok. now rewrite firstn_all2 by lia.
  - rewrite length_app in Hle, Hok.
    destruct (Nat.leb_spec (List.length chunk) (S k')) as [Hfit|Hcut].
    + rewrite IH by (first [lia | destruct Hok; [left; lia|now right]]).
      rewrite firstn_app, (firstn_all2 chunk) by lia. reflexivity.
    + rewrite firstn_app.
      replace (S k' - List.length chunk)%nat with 0%nat by lia.
      now rewrite firstn_O, app_nil_r.
Qed.

Lemma wrap64_small z : - 2 ^ 63 <= z < 2 ^ 63 -> wrap64 z = z.
Proof. intros H. unfold wrap64. rewrite Z.mod_small; lia. Qed.

(** *** The claim on the cadence of [pollOffer] *)

(** The responses after which [pollOffer] polls again. *)
Definition polls_again (resp : pollResponse) : bool :=
  match resp with
  | TransportError _ | BadStatus _ | ReadError _ | EmptyOffer => true
  | _ => false
  end.


(** A request that takes twelve seconds, then two fast ones: after the
    slow request the next two polls start without a sleep, and the
    schedule is five seconds apart again from there. *)
Example pollOffer_after_a_slow_request :
  pollOffer 0 [(12000000000, BadStatus 503); (1000000000, EmptyOffer);
               (1000000000, GoodOffer "offer")]
  = ([{| it_now := 0; it_slept := 0; it_started := 0;
         it_timeOfNextPoll := 5000000000 |};
      {| it_now := 12000000000; it_slept := 0; it_started := 12000000000;
         it_timeOfNextPoll := 12000000000 |};
      {| it_now := 13000000000; it_slept := 0; it_started := 13000000000;
         it_timeOfNextPoll := 17000000000 |}],
     Some (Some "offer"%string)).
Proof. reflexivity. Qed.

(** *** The claim on the tokens of a session *)




(** C1, where the code departs from it.  When [SetLocalDescription] fails
    and the [pc.Close()] that follows succeeds,
    [makePeerConnectionFromOffer] returns [(nil, nil)]; [runSession] takes
    this for success, releases no token, and panics on the nil peer
    connection in [sendAnswer]. *)
Theorem runSession_loses_token_when_SetLocalDescription_fails :
  snd (makePeerConnectionFromOffer localDescriptionFails) = (None, None) /\
  supervise localDescriptionFails =
    ([EvGetToken; EvLog "sdp offer successfully received."; EvLog "Generating answer...";
      EvPcClose],
     Panicked "nil pointer dereference") /\
  acquisitions (fst (supervise localDescriptionFails)) = 1%nat /\
  releases (fst (supervise localDescriptionFails)) = 0%nat /\
  replay_tokens 10 (fst (supervise localDescriptionFails)) 10 = Returned 9%nat.
Proof. repeat split. Qed.

(** *** Lemmas on the first [webRTCConn] *)

Lemma Write_returns_length (c : webRTCConn) (b : bytes) :
  snd (Write c b) = (Z.of_nat (List.length b), None) /\
  (conn_dc c = None -> fst (Write c b) = c) /\
  (forall sent, conn_dc c = Some sent -> conn_dc (fst (Write c b)) = Some (sent ++ [b])).
Proof.
  unfold Write. split; [reflexivity|]. split.
  - now intros ->.
  - now intros sent ->.
Qed.

Lemma Close_after_the_first (c : webRTCConn) :
  conn_once c = true -> forall n, Close_times n c = (c, repeat None n).
Proof.
  intros Hdone. induction n as [|n IH]; [reflexivity|].
  cbn [Close_times repeat]. unfold Close at 1. now rewrite Hdone, IH.
Qed.

Lemma Close_times_once (c : webRTCConn) (n : nat) :
  conn_once c = false ->
  Close_times (S n) c = (fst (Close c), conn_pc_Close c :: repeat None n) /\
  conn_log (fst (Close_times (S n) c)) = conn_log c ++ [EvPcClose].
Proof.
  intros Hfresh. cbn [Close_times]. unfold Close. rewrite Hfresh.
  rewrite Close_after_the_first by reflexivity. split; reflexivity.
Qed.

(** *** The claim on [limitedRead] *)

(** C9, as amended.  For a limit [0 <= L < 2^63 - 1], [limitedRead r L]
    returns a prefix of the stream of at most [L + 1] bytes, and of at
    most [L] bytes when it returns no error.  A stream of at most [L]
    bytes is returned whole, with the reader's error (nil on [io.EOF]).
    A stream of more than [L] bytes is cut to its first [L] bytes and
    reported as [io.ErrUnexpectedEOF] when it holds more than [L + 1]
    bytes or ends without a failure. *)
Theorem limitedRead_bounded (room : nat -> nat) (r : Reader) (limit : Z) :
  (forall n, 0 < room n)%nat ->
  0 <= limit < 2 ^ 63 - 1 ->
  exists p err,
    limitedRead room r limit = Returned (p, err) /\
    (exists tail, content r = p ++ tail) /\
    Z.of_nat (List.length p) <= limit + 1 /\
    (err = None -> Z.of_nat (List.length p) <= limit) /\
    (Z.of_nat (List.length (content r)) <= limit ->
     p = content r /\ err = final_error r) /\
    (limit < Z.of_nat (List.length (content r)) ->
     limit + 1 < Z.of_nat (List.length (content r)) \/ final_error r = None ->
     p = firstn (Z.to_nat limit) (content r) /\ err = Some io_ErrUnexpectedEOF).
Proof.
  intros Hroom Hlimit. unfold limitedRead.
  rewrite wrap64_small by lia.
  set (k := Z.to_nat (limit + 1)).
  replace (limit + 1) with (Z.of_nat k) by (subst k; lia).
  rewrite (readAll_loop_limited room Hroom) by lia. cbn [app].
  pose proof (take_stream_length r k) as Hlen.
  destruct (take_stream_prefix r k) as [tail Htail].
  pose proof (take_stream_short r k) as Hshort.
  pose proof (take_stream_long r k) as Hlong.
  destruct (take_stream r k) as [p0 e0]; cbn [fst snd] in *.
  destruct e0 as [e|].
  - exists p0, (Some e). split; [reflexivity|].
    split; [now exists tail|]. split; [lia|]. split; [discriminate|]. split.
    + intros Hc. assert (Hk : (List.length (content r) < k)%nat) by lia.
      specialize (Hshort Hk). now injection Hshort as -> <-.
    + intros Hc Hok.
      assert (Hk : (k <= List.length (content r))%nat) by lia.
      assert (Hok' : (k < List.length (content r))%nat \/ final_error r = None)
        by (destruct Hok; [left; lia|now right]).
      specialize (Hlong Hk Hok'). discriminate.
  - destruct (Z.eqb_spec (Z.of_nat (List.length p0)) (Z.of_nat k)) as [Hfull|Hnot].
    + destruct (Z.leb_spec 0 limit) as [_|?]; [|lia].
      destruct (Z.leb_spec limit (Z.of_nat (List.length p0))) as [_|?]; [|lia].
      cbn [andb].
      exists (firstn (Z.to_nat limit) p0), (Some io_ErrUnexpectedEOF).
      split; [reflexivity|]. split.
      { exists (skipn (Z.to_nat limit) p0 ++ tail).
        now rewrite app_assoc, firstn_skipn. }
      rewrite length_firstn.
      split; [lia|]. split; [discriminate|]. split.
      * intros Hc. assert (Hk : (List.length (content r) < k)%nat) by lia.
        specialize (Hshort Hk). injection Hshort as -> _. lia.
      * intros Hc Hok.
        assert (Hk : (k <= List.length (content r))%nat) by lia.
        assert (Hok' : (k < List.length (content r))%nat \/ final_error r = None)
          by (destruct Hok; [left; lia|now right]).
        specialize (Hlong Hk Hok'). injection Hlong as ->.
        split; [|reflexivity].
        rewrite firstn_firstn. f_equal. lia.
    + exists p0, None. split; [reflexivity|].
      split; [now exists tail|]. split; [lia|]. split; [lia|]. split.
      * intros Hc. assert (Hk : (List.length (content r) < k)%nat) by lia.
        specialize (Hshort Hk). now injection Hshort as -> <-.
      * intros Hc Hok.
        assert (Hk : (k <= List.length (content r))%nat) by lia.
        assert (Hok' : (k < List.length (content r))%nat \/ final_error r = None)
          by (destruct Hok; [left; lia|now right]).
        specialize (Hlong Hk Hok'). injection Hlong as ->.
        rewrite length_firstn in Hnot. lia.
Qed.

(** In particular the loop of [ioutil.ReadAll] has ended long before the
    iteration count of the model is used up: [limitedRead] never blocks. *)
Lemma limitedRead_returns_or_panics (room : nat -> nat) (r : Reader) (limit : Z) :
  (forall n, 0 < room n)%nat ->
  0 <= wrap64 (limit + 1) ->
  limitedRead room r limit <> Blocked.
Proof.
  intros Hroom Hn. unfold limitedRead.
  replace (wrap64 (limit + 1)) with (Z.of_nat (Z.to_nat (wrap64 (limit + 1)))) by lia.
  rewrite (readAll_loop_limited room Hroom) by lia.
  destruct (take_stream r _) as [p0 [e|]]; cbn [fst snd app]; [discriminate|].
  destruct (_ =? _); [destruct (_ && _)|]; discriminate.
Qed.

Definition room512 (_ : nat) : nat := 512%nat.

(** A body of two reads, four bytes in all. *)
Definition twoReads : Reader := [([x61; x62], None); ([x63; x64], None)].

(** A body whose only read delivers three bytes together with an error. *)
Definition failingRead : Reader := [([x61; x62; x63], Some "connection reset"%string)].

Lemma limitedRead_bounded_witness :
  exists p err,
    limitedRead room512 twoReads 3 = Returned (p, err) /\
    p = [x61; x62; x63] /\ err = Some io_ErrUnexpectedEOF.
Proof.
  destruct (limitedRead_bounded room512 twoReads 3) as (p & err & Hcall & _ & _ & _ & _ & Hcut).
  - intros n. unfold room512. lia.
  - lia.
  - exists p, err. split; [exact Hcall|].
    apply Hcut; [reflexivity | right; reflexivity].
Defined.

(** C9 as stated fails twice.  With the limit 2, a read that delivers three
    bytes and an error makes [limitedRead] return all three bytes, more
    than the limit, and the reader's error rather than
    [io.ErrUnexpectedEOF], although the stream holds more than two bytes.
    With the limit -1 the slice expression panics. *)
Lemma limitedRead_exceeds_limit :
  content failingRead = [x61; x62; x63] /\
  limitedRead room512 failingRead 2
    = Returned ([x61; x62; x63], Some "connection reset"%string) /\
  limitedRead room512 failingRead (-1) = Panicked "slice bounds out of range".
Proof. repeat split. Qed.

(** *** The rest of the file: session ids, NAT type, the token channel,
    the broker loop *)

(** [base64.StdEncoding]: the alphabet, and [EncodeToString] with its
    padding. *)
Definition encodeStd : string :=
  "ABCDEFGHIJKLMNOPQRSTUVWXYZabcdefghijklmnopqrstuvwxyz0123456789+/".

Definition enc (i : N) : ascii :=
  nth (N.to_nat i) (list_ascii_of_string encodeStd) "A"%char.

Fixpoint EncodeToString (src : bytes) : string :=
  match src with
  | [] => EmptyString
  | [a] =>
    let val := N.shiftl (Byte.to_N a) 16 in
    String (enc (N.land (N.shiftr val 18) 63))
      (String (enc (N.land (N.shiftr val 12) 63)) "==")
  | [a; b] =>
    let val := N.lor (N.shiftl (Byte.to_N a) 16) (N.shiftl (Byte.to_N b) 8) in
    String (enc (N.land (N.shiftr val 18) 63))
      (String (enc (N.land (N.shiftr val 12) 63))
         (String (enc (N.land (N.shiftr val 6) 63)) "="))
  | a :: b :: c :: rest =>
    let val := N.lor (N.lor (N.shiftl (Byte.to_N a) 16) (N.shiftl (Byte.to_N b) 8))
                     (Byte.to_N c) in
    String (enc (N.land (N.shiftr val 18) 63))
      (String (enc (N.land (N.shiftr val 12) 63))
         (String (enc (N.land (N.shiftr val 6) 63))
            (String (enc (N.land val 63)) (EncodeToString rest))))
  end.

(** Whether a character is one of those of [cutset]. *)
Definition in_cutset (cutset : string) (ch : ascii) : bool :=
  existsb (Ascii.eqb ch) (list_ascii_of_string cutset).

(** [strings.TrimRight]: drop the trailing characters that are in
    [cutset]. *)
Fixpoint TrimRight (s cutset : string) : string :=
  match s with
  | EmptyString => EmptyString
  | String ch rest =>
    match TrimRight rest cutset with
    | EmptyString => if in_cutset cutset ch then EmptyString else String ch EmptyString
    | rest' => String ch rest'
    end
  end.

Definition sessionIDLength : nat := 16.

(** [genSessionID]: [buf] is the buffer as [rand.Read] filled it and [err]
    the error it returned. *)
Definition genSessionID (buf : bytes) (err : option error) : outcome string :=
  match err with
  | Some e => Panicked e
  | None => Returned (TrimRight (EncodeToString buf) "=")
  end.

(** Whether every character of a string passes a test. *)
Fixpoint all_chars (P : ascii -> bool) (s : string) : bool :=
  match s with
  | EmptyString => true
  | String ch rest => P ch && all_chars P rest
  end.

Definition NATUnknown : string := "unknown".
Definition NATRestricted : string := "restricted".
Definition NATUnrestricted : string := "unrestricted".

(** [strings.TrimPrefix]. *)
Definition TrimPrefix (s prefix : string) : string :=
  if String.prefix prefix s
  then substring (String.length prefix) (String.length s - String.length prefix) s
  else s.

(** [webrtc.ICEServer], of which [updateNATType] reads the URLs. *)
Record ICEServer : Type := {
  URLs : list string
}.

Section NAT.

(** [nat.CheckIfRestrictedNAT], of a package that is not among the
    sources. *)
Variable CheckIfRestrictedNAT : string -> result bool.

(** The loop of [updateNATType]: [err] is the variable of that name, and
    [server.URLs[0]] panics on a server without URLs. *)
Fixpoint updateNATType_loop (servers : list ICEServer) (err : option error)
  (currentNATType : string) : outcome (option error * string) :=
  match servers with
  | [] => Returned (err, currentNATType)
  | server :: rest =>
    match URLs server with
    | [] => Panicked "index out of range"
    | url :: _ =>
      match CheckIfRestrictedNAT (TrimPrefix url "stun:") with
      | Ok restrictedNAT =>
        Returned (None, if restrictedNAT then NATRestricted else NATUnrestricted)
      | Err e => updateNATType_loop rest (Some e) currentNATType
      end
    end
  end.

(** [updateNATType]: the value of [currentNATType] afterwards. *)
Definition updateNATType (servers : list ICEServer) (currentNATType : string)
  : outcome string :=
  match updateNATType_loop servers None currentNATType with
  | Returned (Some _, _) => Returned NATUnknown
  | Returned (None, natType) => Returned natType
  | Panicked msg => Panicked msg
  | Blocked => Blocked
  end.

(** A server that has a URL and whose probe fails. *)
Definition probe_fails (server : ICEServer) : bool :=
  match URLs server with
  | [] => false
  | url :: _ =>
    match CheckIfRestrictedNAT (TrimPrefix url "stun:") with
    | Ok _ => false
    | Err _ => true
    end
  end.

(** The NAT type comes from the first server that answers.  Servers whose
    probe fails are passed over; the first one that answers decides
    between restricted and unrestricted, and the servers after it are
    not touched.  When every probe fails the type is unknown, whatever it
    was; without any server it keeps its value. *)
Theorem updateNATType_first_answer
  (failed rest : list ICEServer) (url : string) (more : list string)
  (restricted : bool) (currentNATType : string) :
  Forall (fun server => probe_fails server = true) failed ->
  (CheckIfRestrictedNAT (TrimPrefix url "stun:") = Ok restricted ->
   updateNATType (failed ++ {| URLs := url :: more |} :: rest) currentNATType
   = Returned (if restricted then NATRestricted else NATUnrestricted)) /\
  (failed <> [] -> updateNATType failed currentNATType = Returned NATUnknown) /\
  updateNATType [] currentNATType = Returned currentNATType.
Proof.
  intros Hfailed.
  assert (Hskip : forall err,
            CheckIfRestrictedNAT (TrimPrefix url "stun:") = Ok restricted ->
            updateNATType_loop (failed ++ {| URLs := url :: more |} :: rest) err
              currentNATType
            = Returned (None, if restricted then NATRestricted else NATUnrestricted)).
  { intros err Hok. revert err.
    induction Hfailed as [|server failed Hs _ IH]; intros err.
    - cbn [app updateNATType_loop URLs]. now rewrite Hok.
    - cbn [app updateNATType_loop]. unfold probe_fails in Hs.
      destruct (URLs server) as [|u us]; [discriminate|].
      destruct (CheckIfRestrictedNAT (TrimPrefix u "stun:")) as [r|e]; [discriminate|].
      apply IH. }
  assert (Herr : forall err, failed <> [] ->
            exists e, updateNATType_loop failed err currentNATType
                      = Returned (Some e, currentNATType)).
  { clear Hskip.
    induction Hfailed as [|server failed Hs _ IH]; intros err Hne; [contradiction|].
    cbn [updateNATType_loop]. unfold probe_fails in Hs.
    destruct (URLs server) as [|u us]; [discriminate|].
    destruct (CheckIfRestrictedNAT (TrimPrefix u "stun:")) as [r|e]; [discriminate|].
    destruct failed as [|s2 failed']; [now exists e|].
    apply IH. discriminate. }
  split; [|split].
  - intros Hok. unfold updateNATType. now rewrite (Hskip None Hok).
  - intros Hne. unfold updateNATType.
    destruct (Herr None Hne) as [e ->]. reflexivity.
  - reflexivity.
Qed.

End NAT.



(** The [OnClose] callback of the data channel, installed by
    [makePeerConnectionFromOffer]: it clears the reference ([dc.Close()]
    and [pw.Close()] act on the channel and the pipe, outside this
    record). *)
Definition OnClose (c : webRTCConn) : webRTCConn :=
  {| conn_dc := None; conn_once := conn_once c;
     conn_pc_Close := conn_pc_Close c; conn_log := conn_log c |}.

(** Several writes in a row on the first [webRTCConn]. *)
Fixpoint Write_all (c : webRTCConn) (bs : list bytes)
  : webRTCConn * list (Z * option error) :=
  match bs with
  | [] => (c, [])
  | b :: rest =>
    let '(c1, r) := Write c b in
    let '(c2, rs) := Write_all c1 rest in
    (c2, r :: rs)
  end.

(** The test vectors of RFC 4648, section 10. *)
Example EncodeToString_rfc4648 :
  EncodeToString [] = ""%string /\
  EncodeToString [x66] = "Zg=="%string /\
  EncodeToString [x66; x6f] = "Zm8="%string /\
  EncodeToString [x66; x6f; x6f] = "Zm9v"%string /\
  EncodeToString [x66; x6f; x6f; x62] = "Zm9vYg=="%string /\
  EncodeToString [x66; x6f; x6f; x62; x61] = "Zm9vYmE="%string /\
  EncodeToString [x66; x6f; x6f; x62; x61; x72] = "Zm9vYmFy"%string.
Proof. repeat split. Qed.

Definition is_base64 (ch : ascii) : bool := in_cutset encodeStd ch.

Lemma enc_is_base64 (i : N) : is_base64 (enc i) = true.
Proof.
  unfold is_base64, in_cutset, enc.
  apply existsb_exists.
  destruct (nth_in_or_default (N.to_nat i) (list_ascii_of_string encodeStd) "A"%char)
    as [Hin|Hdef].
  - eexists. split; [exact Hin|apply Ascii.eqb_refl].
  - rewrite Hdef. exists "A"%char. split; [cbn; tauto|reflexivity].
Qed.

Lemma is_base64_not_padding (ch : ascii) :
  is_base64 ch = true -> in_cutset "=" ch = false.
Proof.
  intros Hb. unfold in_cutset; cbn [list_ascii_of_string existsb].
  destruct (Ascii.eqb_spec ch "="%char) as [->|_]; [discriminate Hb|reflexivity].
Qed.

Lemma TrimRight_padding (body pad cutset : string) :
  all_chars (fun ch => negb (in_cutset cutset ch)) body = true ->
  all_chars (in_cutset cutset) pad = true ->
  TrimRight (body ++ pad) cutset = body.
Proof.
  intros Hbody Hpad. induction body as [|ch body IH].
  - cbn [append]. induction pad as [|p pad IHp]; [reflexivity|].
    cbn [all_chars] in Hpad. apply andb_prop in Hpad as [Hp Hpad].
    cbn [TrimRight]. now rewrite (IHp Hpad), Hp.
  - cbn [all_chars] in Hbody. apply andb_prop in Hbody as [Hch Hbody].
    cbn [append TrimRight]. rewrite (IH Hbody).
    apply negb_true_iff in Hch. rewrite Hch. now destruct body.
Qed.

(** The shape of an encoding: a body of alphabet characters, four for
    every three bytes and two or three for what is left over, and then
    the padding that fills the last group. *)
Lemma EncodeToString_shape (n : nat) :
  forall src, (List.length src <= n)%nat ->
  exists body pad,
    EncodeToString src = (body ++ pad)%string /\
    all_chars is_base64 body = true /\
    all_chars (in_cutset "=") pad = true /\
    String.length body = ((4 * List.length src + 2) / 3)%nat.
Proof.
  induction n as [n IH] using lt_wf_ind. intros src Hn.
  destruct src as [|a [|b [|c rest]]].
  - exists EmptyString, EmptyString. repeat split.
  - eexists (String _ (String _ EmptyString)), "=="%string.
    cbn [EncodeToString append all_chars]. rewrite !enc_is_base64. repeat split.
  - eexists (String _ (String _ (String _ EmptyString))), "="%string.
    cbn [EncodeToString append all_chars]. rewrite !enc_is_base64. repeat split.
  - cbn [List.length] in Hn.
    destruct (IH (List.length rest) ltac:(lia) rest (le_n _))
      as (body & pad & Henc & Hbody & Hpad & Hlen).
    eexists (String _ (String _ (String _ (String _ body)))), pad.
    cbn [EncodeToString append all_chars]. rewrite !enc_is_base64, Henc, Hbody.
    repeat split; [exact Hpad|].
    cbn [String.length List.length]. rewrite Hlen.
    replace (4 * S (S (S (List.length rest))) + 2)%nat
      with (4 * List.length rest + 2 + 4 * 3)%nat by lia.
    rewrite Nat.div_add by lia. lia.
Qed.

(** Session ids.  Whatever the sixteen random bytes, [genSessionID]
    returns twenty-two characters of the base64 alphabet and no padding
    character; it panics when the random source fails. *)
Theorem genSessionID_unpadded (buf : bytes) :
  List.length buf = sessionIDLength ->
  (exists sid,
     genSessionID buf None = Returned sid /\
     String.length sid = 22%nat /\
     all_chars is_base64 sid = true /\
     all_chars (fun ch => negb (Ascii.eqb ch "=")) sid = true) /\
  (forall e, genSessionID buf (Some e) = Panicked e).
Proof.
  intros Hlen. split; [|reflexivity].
  destruct (EncodeToString_shape _ buf (le_n _)) as (body & pad & Henc & Hbody & Hpad & Hl).
  exists body. unfold genSessionID. rewrite Henc.
  assert (Hnot : all_chars (fun ch => negb (in_cutset "=" ch)) body = true).
  { clear -Hbody. induction body as [|ch body IH]; [reflexivity|].
    cbn [all_chars] in *. apply andb_prop in Hbody as [Hch Hbody].
    now rewrite (is_base64_not_padding _ Hch), IH. }
  rewrite (TrimRight_padding _ _ _ Hnot Hpad).
  split; [reflexivity|]. split; [rewrite Hl, Hlen; reflexivity|]. split; [exact Hbody|].
  clear -Hnot. induction body as [|ch body IH]; [reflexivity|].
  cbn [all_chars] in *. apply andb_prop in Hnot as [Hch Hnot].
  rewrite (IH Hnot), andb_true_r.
  unfold in_cutset in Hch; cbn [list_ascii_of_string existsb] in Hch.
  now rewrite orb_false_r in Hch.
Qed.




(** What [makePeerConnectionFromOffer] gives back.  It returns a peer
    connection exactly when all four steps succeed, and then no error and
    an open connection.  Whenever it returns none, a connection that was
    created has been closed, once.  And it returns neither a connection
    nor an error exactly when [SetLocalDescription] fails and the
    [pc.Close()] after it succeeds. *)
Theorem makePeerConnectionFromOffer_result (env : session_env) :
  let r := makePeerConnectionFromOffer env in
  let closes := List.length (filter (fun e => match e with EvPcClose => true | _ => false end)
                               (fst r)) in
  (fst (snd r) = Some ThePeerConnection <->
   env_NewPeerConnection env = None /\ env_SetRemoteDescription env = None /\
   env_CreateAnswer env = None /\ env_SetLocalDescription env = None) /\
  (fst (snd r) = Some ThePeerConnection -> snd (snd r) = None /\ closes = 0%nat) /\
  (fst (snd r) = None ->
   closes = match env_NewPeerConnection env with Some _ => 0%nat | None => 1%nat end) /\
  (snd r = (None, None) <->
   env_NewPeerConnection env = None /\ env_SetRemoteDescription env = None /\
   env_CreateAnswer env = None /\ env_SetLocalDescription env <> None /\
   env_pc_Close env = None).
Proof.
  destruct env as [offer npc srd ca sld pcc sa dco relay dial].
  unfold makePeerConnectionFromOffer, pcClose; cbn.
  destruct npc, srd, ca, sld, pcc; cbn;
    repeat split; try discriminate; try reflexivity;
    try (intros (? & ? & ? & ?); discriminate);
    try (intros (? & ? & ? & ? & ?); discriminate);
    try (intros (? & ? & ? & ? & ?); congruence).
Qed.

(** The broker loop waits for an offer.  Transport errors, statuses other
    than 200, read errors and empty offers make [pollOffer] poll again,
    however many there are; the first other response ends the loop, with
    the offer when it holds one and with nil otherwise.  While only such
    failures come, the loop has not returned. *)
Theorem pollOffer_polls_until_an_answer
  (timeOfNextPoll now took : Z) (failures rest : list (Z * pollResponse))
  (resp : pollResponse) :
  Forall (fun p => polls_again (snd p) = true) failures ->
  (polls_again resp = false ->
   snd (pollOffer_loop timeOfNextPoll now (failures ++ (took, resp) :: rest))
     = Some (match resp with GoodOffer sdp => Some sdp | _ => None end) /\
   List.length (fst (pollOffer_loop timeOfNextPoll now (failures ++ (took, resp) :: rest)))
     = S (List.length failures)) /\
  snd (pollOffer_loop timeOfNextPoll now failures) = None /\
  List.length (fst (pollOffer_loop timeOfNextPoll now failures)) = List.length failures.
Proof.
  intros Hfail. revert timeOfNextPoll now.
  induction Hfail as [|[d r] failures Hr _ IH]; intros timeOfNextPoll now.
  - split; [|split; reflexivity].
    intros Hresp. cbn [app pollOffer_loop]. unfold schedule.
    destruct resp; try discriminate; split; reflexivity.
  - cbn [app pollOffer_loop snd] in *. unfold schedule.
    set (next := if timeOfNextPoll + pollInterval <? now then now
                 else timeOfNextPoll + pollInterval).
    set (now' := now + Z.max 0 (timeOfNextPoll - now) + d).
    destruct (IH next now') as (Hans & Hnone & Hlen).
    destruct r; try discriminate.
    all: split; [intros Hresp; destruct (Hans Hresp) as [H1 H2];
                 destruct (pollOffer_loop next now' (failures ++ _)) as [its res];
                 cbn [fst snd List.length] in *; now rewrite H1, H2|].
    all: destruct (pollOffer_loop next now' failures) as [its res];
         cbn [fst snd List.length] in *; now rewrite Hnone, Hlen.
Qed.

Lemma pollOffer_loop_head timeOfNextPoll now script it its :
  fst (pollOffer_loop timeOfNextPoll now script) = it :: its ->
  it_started it = Z.max now timeOfNextPoll /\
  it_timeOfNextPoll it = Z.max (timeOfNextPoll + pollInterval) now /\
  (its = [] \/
   exists now' rest, its = fst (pollOffer_loop (it_timeOfNextPoll it) now' rest)).
Proof.
  destruct script as [|[took resp] rest]; [discriminate|].
  cbn [pollOffer_loop]. unfold schedule.
  assert (Hs : now + Z.max 0 (timeOfNextPoll - now) = Z.max now timeOfNextPoll) by lia.
  assert (Hn : (if timeOfNextPoll + pollInterval <? now then now
                else timeOfNextPoll + pollInterval)
               = Z.max (timeOfNextPoll + pollInterval) now)
    by (destruct (Z.ltb_spec (timeOfNextPoll + pollInterval) now); lia).
  destruct resp.
  all: try (intros H; injection H as <- <-; cbn [it_started it_timeOfNextPoll];
            rewrite Hs; split; [reflexivity|split; [exact Hn|now left]]).
  all: destruct (pollOffer_loop _ _ rest) as [its' r] eqn:HL; cbn [fst];
       intros H; injection H as <- <-; cbn [it_started it_timeOfNextPoll];
       split; [exact Hs|split; [exact Hn|]];
       right; exists (now + Z.max 0 (timeOfNextPoll - now) + took), rest;
       now rewrite HL.
Qed.

(** The broker is never polled faster than twice in [pollInterval].  In
    every run of the loop, whatever the clock and however long the
    requests take, the second poll after a poll starts at least
    [pollInterval] after that poll did. *)
Theorem pollOffer_rate (i : nat) :
  forall (timeOfNextPoll now : Z) (script : list (Z * pollResponse)) (a b : pollIteration),
    nth_error (fst (pollOffer_loop timeOfNextPoll now script)) i = Some a ->
    nth_error (fst (pollOffer_loop timeOfNextPoll now script)) (S (S i)) = Some b ->
    it_started a + pollInterval <= it_started b.
Proof.
  assert (Hpos : 0 < pollInterval) by reflexivity.
  induction i as [|i IH]; intros timeOfNextPoll now script a b Ha Hb.
  - destruct (fst (pollOffer_loop timeOfNextPoll now script)) as [|it its] eqn:Hloop;
      [discriminate|].
    cbn in Ha. injection Ha as ->.
    destruct (pollOffer_loop_head _ _ _ _ _ Hloop) as (Hstart & Hnext & [->|Htail]);
      [discriminate|].
    destruct Htail as (now1 & rest1 & ->). cbn [nth_error] in Hb.
    destruct (fst (pollOffer_loop (it_timeOfNextPoll a) now1 rest1)) as [|it1 its1] eqn:Hloop1;
      [discriminate|].
    destruct (pollOffer_loop_head _ _ _ _ _ Hloop1) as (_ & Hnext1 & [->|Htail1]);
      [discriminate|].
    destruct Htail1 as (now2 & rest2 & ->). cbn [nth_error] in Hb.
    destruct (fst (pollOffer_loop (it_timeOfNextPoll it1) now2 rest2)) as [|it2 its2] eqn:Hloop2;
      [discriminate|].
    injection Hb as ->.
    destruct (pollOffer_loop_head _ _ _ _ _ Hloop2) as (Hstart2 & _ & _).
    lia.
  - destruct (fst (pollOffer_loop timeOfNextPoll now script)) as [|it its] eqn:Hloop;
      [discriminate|].
    destruct (pollOffer_loop_head _ _ _ _ _ Hloop) as (_ & _ & [->|Htail]);
      [discriminate|].
    destruct Htail as (now1 & rest1 & ->).
    exact (IH _ _ _ _ _ Ha Hb).
Qed.

(** The buffers do not matter.  However [ioutil.ReadAll] sizes the room
    it reads into, [limitedRead] ends, and with the same result. *)
Theorem limitedRead_whatever_the_buffers (room1 room2 : nat -> nat) (r : Reader) (limit : Z) :
  (forall n, 0 < room1 n)%nat ->
  (forall n, 0 < room2 n)%nat ->
  limitedRead room1 r limit = limitedRead room2 r limit /\
  limitedRead room1 r limit <> Blocked.
Proof.
  intros H1 H2.
  assert (Hloop : forall room, (forall n, 0 < room n)%nat ->
            readAll_loop room (S (weight r)) {| LR_R := r; LR_N := wrap64 (limit + 1) |} []
            = Some (fst (take_stream r (Z.to_nat (wrap64 (limit + 1)))),
                    snd (take_stream r (Z.to_nat (wrap64 (limit + 1)))))).
  { intros room Hroom.
    destruct (Z.leb_spec (wrap64 (limit + 1)) 0) as [Hneg|Hpos].
    - cbn [readAll_loop]. unfold Read at 1, LimitedReader_Read. cbn [LR_N].
      destruct (Z.leb_spec (wrap64 (limit + 1)) 0) as [_|?]; [|lia].
      replace (Z.to_nat (wrap64 (limit + 1))) with 0%nat by lia.
      now rewrite take_stream_0.
    - replace (wrap64 (limit + 1)) with (Z.of_nat (Z.to_nat (wrap64 (limit + 1)))) at 1
        by lia.
      now rewrite (readAll_loop_limited room Hroom) by lia. }
  unfold limitedRead. rewrite (Hloop room1 H1), (Hloop room2 H2).
  split; [reflexivity|].
  destruct (take_stream r _) as [p0 [e|]]; cbn [fst snd]; [discriminate|].
  destruct (_ =? _); [destruct (_ && _)|]; discriminate.
Qed.

Lemma Write_all_cons (c : webRTCConn) (b : bytes) (bs : list bytes) :
  Write_all c (b :: bs) =
  (fst (Write_all (fst (Write c b)) bs),
   snd (Write c b) :: snd (Write_all (fst (Write c b)) bs)).
Proof.
  cbn [Write_all]. destruct (Write c b) as [c1 r]. cbn [fst snd].
  destruct (Write_all c1 bs) as [c2 rs]. reflexivity.
Qed.

(** Messages keep their order.  On a live data channel a run of writes
    sends the slices as so many messages, in the order written; once the
    reference is cleared, as [OnClose] does, the session does not change
    at all.  Either way every write reports the full length, and [Write]
    never closes the session. *)
Theorem Write_all_in_order (c : webRTCConn) (bs : list bytes) :
  snd (Write_all c bs) = map (fun b => (Z.of_nat (List.length b), None)) bs /\
  conn_dc (fst (Write_all c bs)) = option_map (fun sent => sent ++ bs) (conn_dc c) /\
  conn_once (fst (Write_all c bs)) = conn_once c /\
  conn_log (fst (Write_all c bs)) = conn_log c /\
  (conn_dc c = None -> fst (Write_all c bs) = c) /\
  fst (Write_all (OnClose c) bs) = OnClose c.
Proof.
  enough (H : forall c,
            snd (Write_all c bs) = map (fun b => (Z.of_nat (List.length b), None)) bs /\
            conn_dc (fst (Write_all c bs))
              = option_map (fun sent => sent ++ bs) (conn_dc c) /\
            conn_once (fst (Write_all c bs)) = conn_once c /\
            conn_log (fst (Write_all c bs)) = conn_log c /\
            (conn_dc c = None -> fst (Write_all c bs) = c)).
  { destruct (H c) as (H1 & H2 & H3 & H4 & H5).
    destruct (H (OnClose c)) as (_ & _ & _ & _ & H6).
    repeat split; auto. }
  clear c. induction bs as [|b bs IH]; intros c.
  - cbn. repeat split. destruct (conn_dc c); cbn; [now rewrite app_nil_r|reflexivity].
  - rewrite Write_all_cons. cbn [fst snd map].
    destruct (IH (fst (Write c b))) as (Hr & Hdc & Honce & Hlog & Hnone).
    assert (H1 : conn_once (fst (Write c b)) = conn_once c /\
                 conn_log (fst (Write c b)) = conn_log c /\
                 conn_dc (fst (Write c b))
                 = option_map (fun sent => sent ++ [b]) (conn_dc c) /\
                 (conn_dc c = None -> fst (Write c b) = c))
      by (unfold Write; destruct (conn_dc c) eqn:E; cbn; rewrite ?E; repeat split;
          discriminate).
    destruct H1 as (H1 & H2 & H3 & H4).
    rewrite Hr, Hdc, Honce, Hlog, H1, H2, H3.
    split; [reflexivity|]. split.
    { destruct (conn_dc c); cbn; [now rewrite <- app_assoc|reflexivity]. }
    split; [reflexivity|]. split; [reflexivity|].
    intros Hc. rewrite Hnone; rewrite (H4 Hc); [reflexivity|exact Hc].
Qed.



(** A probe that only the default STUN server answers, as unrestricted. *)
Definition demoCheckIfRestrictedNAT (addr : string) : result bool :=
  if String.eqb addr "stun.stunprotocol.org:3478" then Ok false
  else Err "timeout"%string.

(** Three times a 503, one second each, and then an offer. *)
Definition brokerRecovers : list (Z * pollResponse) :=
  [(1000000000, BadStatus 503); (1000000000, BadStatus 503); (1000000000, BadStatus 503);
   (1000000000, GoodOffer "offer")].

Definition room1 (_ : nat) : nat := 1%nat.


Lemma updateNATType_first_answer_witness :
  updateNATType demoCheckIfRestrictedNAT
    [{| URLs := ["stun:down.example.net:3478"%string] |};
     {| URLs := ["stun:stun.stunprotocol.org:3478"%string] |};
     {| URLs := [] |}] NATUnknown
  = Returned NATUnrestricted.
Proof.
  apply (proj1 (updateNATType_first_answer demoCheckIfRestrictedNAT
                  [{| URLs := ["stun:down.example.net:3478"%string] |}]
                  [{| URLs := [] |}]
                  "stun:stun.stunprotocol.org:3478" [] false NATUnknown
                  ltac:(repeat constructor))).
  reflexivity.
Defined.

Lemma genSessionID_unpadded_witness :
  exists sid,
    genSessionID (repeat xff 16) None = Returned sid /\ String.length sid = 22%nat.
Proof.
  destruct (proj1 (genSessionID_unpadded (repeat xff 16) eq_refl))
    as (sid & Hid & Hlen & _).
  exists sid. split; [exact Hid|exact Hlen].
Defined.


Lemma pollOffer_polls_until_an_answer_witness :
  snd (pollOffer 0 brokerRecovers) = Some (Some "offer"%string) /\
  List.length (fst (pollOffer 0 brokerRecovers)) = 4%nat.
Proof.
  apply (proj1 (pollOffer_polls_until_an_answer 0 0 1000000000
                  [(1000000000, BadStatus 503); (1000000000, BadStatus 503);
                   (1000000000, BadStatus 503)]
                  [] (GoodOffer "offer") ltac:(repeat constructor))).
  reflexivity.
Defined.

Lemma pollOffer_rate_witness :
  0 + pollInterval <= 10000000000.
Proof.
  apply (pollOffer_rate 0 0 0 brokerRecovers
           {| it_now := 0; it_slept := 0; it_started := 0;
              it_timeOfNextPoll := 5000000000 |}
           {| it_now := 6000000000; it_slept := 4000000000; it_started := 10000000000;
              it_timeOfNextPoll := 15000000000 |});
    reflexivity.
Defined.

Lemma limitedRead_whatever_the_buffers_witness :
  limitedRead room1 twoReads 3 = limitedRead room512 twoReads 3.
Proof.
  apply (limitedRead_whatever_the_buffers room1 room512 twoReads 3);
    intros n; [unfold room1|unfold room512]; lia.
Defined.

End ProxyMain.

(** ** The proxy library ([proxy/lib/webrtcconn.go]) *)

Module ProxyLib.
Import Go.
Local Open Scope Z_scope.

(** [maxBufferedAmount = 512 * 1024]. *)
Definition maxBufferedAmount : Z := 512 * 1024.

(** The two patterns of [remoteIPPatterns], IPv4 first. *)
Definition patternIPv4 : string :=
  "(?m)^c=IN IP4 ([\d.]+)(?:(?:\/\d+)?\/\d+)?(:? |\r?\n)".
Definition patternIPv6 : string :=
  "(?m)^c=IN IP6 ([0-9A-Fa-f:.]+)(?:\/\d+)?(:? |\r?\n)".
Definition remoteIPPatterns : list string := [patternIPv4; patternIPv6].

(** What [remoteIPFromSDP] reads of a parsed [sdp.SessionDescription]. *)
Record Attribute : Type := {
  Key : string;
  Value : string
}.

Record MediaDescription : Type := {
  Attributes : list Attribute
}.

Record SessionDescription : Type := {
  MediaDescriptions : list MediaDescription
}.

(** [Attribute.IsICECandidate]: the key is [candidate]. *)
Definition IsICECandidate (a : Attribute) : bool := String.eqb (Key a) "candidate".

(** The calls that [Close] makes, in order. *)
Inductive conn_event : Type :=
| CancelTimeoutLoop
| PipeReaderClose
| PeerConnectionClose.

Section Conn.

(** [net.IP] with [net.ParseIP], [IP.IsUnspecified], [IP.IsLoopback], and
    [util.IsLocal]. *)
Variable IP : Type.
Variable net_ParseIP : string -> option IP.
Variable util_IsLocal : IP -> bool.
Variable IsUnspecified : IP -> bool.
Variable IsLoopback : IP -> bool.

(** [SessionDescription.Unmarshal], the address of a parsed candidate
    ([ice.UnmarshalCandidate(a.Value)] and [c.Address()]; in
    [snowflake.go], [a.ToICECandidate()] and [ice.Address]), and
    [Regexp.FindStringSubmatch] by pattern. *)
Variable sdp_Unmarshal : string -> result SessionDescription.
Variable candidate_Address : string -> result string.
Variable FindStringSubmatch : string -> string -> option (list string).

(** [isRemoteAddress] ([snowflake.go]). *)
Definition isRemoteAddress (ip : IP) : bool :=
  negb (util_IsLocal ip || IsUnspecified ip || IsLoopback ip).

(** The inner loop over [m.Attributes], with its [return ip]. *)
Fixpoint scan_attributes (attrs : list Attribute) : option IP :=
  match attrs with
  | [] => None
  | a :: rest =>
    if IsICECandidate a then
      match candidate_Address (Value a) with
      | Ok address =>
        match net_ParseIP address with
        | Some ip => if isRemoteAddress ip then Some ip else scan_attributes rest
        | None => scan_attributes rest
        end
      | Err _ => scan_attributes rest
      end
    else scan_attributes rest
  end.

(** The outer loop over [desc.MediaDescriptions]. *)
Fixpoint scan_media (ms : list MediaDescription) : option IP :=
  match ms with
  | [] => None
  | m :: rest =>
    match scan_attributes (Attributes m) with
    | Some ip => Some ip
    | None => scan_media rest
    end
  end.

(** The loop over [remoteIPPatterns]; [m[1]] is the first group. *)
Fixpoint scan_patterns (patterns : list string) (str : string) : option IP :=
  match patterns with
  | [] => None
  | pattern :: rest =>
    match FindStringSubmatch pattern str with
    | Some m =>
      match net_ParseIP (nth 1 m EmptyString) with
      | Some ip => if isRemoteAddress ip then Some ip else scan_patterns rest str
      | None => scan_patterns rest str
      end
    | None => scan_patterns rest str
    end
  end.

(** [remoteIPFromSDP]; the nil [net.IP] is [None]. *)
Definition remoteIPFromSDP (str : string) : option IP :=
  match sdp_Unmarshal str with
  | Err _ => None
  | Ok desc =>
    match scan_media (MediaDescriptions desc) with
    | Some ip => Some ip
    | None => scan_patterns remoteIPPatterns str
    end
  end.





(** The data channel: [Send], whose error [Write] drops, and
    [BufferedAmount]. *)
Variable DataChannel : Type.
Variable dc_Send : DataChannel -> bytes -> DataChannel * option error.
Variable dc_BufferedAmount : DataChannel -> Z.

(** [webRTCConn].  [pc_RemoteDescription] is the SDP of
    [pc.RemoteDescription()], a nil pointer until a remote description is
    set; [activity] and [sendMoreCh] are the numbers of signals waiting in
    the two channels (of capacity 100 and 1); [inbound] is the count kept
    by [bytesLogger]; [calls] lists what [Close] has called. *)
Record webRTCConn : Type := {
  dc : option DataChannel;
  pc_RemoteDescription : option string;
  pc_Close_error : option error;
  pr_Close_error : option error;
  once : bool;
  activity : nat;
  sendMoreCh : nat;
  inbound : Z;
  calls : list conn_event
}.

Definition with_dc (c : webRTCConn) (d : option DataChannel) : webRTCConn :=
  {| dc := d; pc_RemoteDescription := pc_RemoteDescription c;
     pc_Close_error := pc_Close_error c; pr_Close_error := pr_Close_error c;
     once := once c; activity := activity c; sendMoreCh := sendMoreCh c;
     inbound := inbound c; calls := calls c |}.

Definition with_sendMoreCh (c : webRTCConn) (n : nat) : webRTCConn :=
  {| dc := dc c; pc_RemoteDescription := pc_RemoteDescription c;
     pc_Close_error := pc_Close_error c; pr_Close_error := pr_Close_error c;
     once := once c; activity := activity c; sendMoreCh := n;
     inbound := inbound c; calls := calls c |}.

(** The first lines of [Write]: count the bytes, and signal activity
    unless the channel is full. *)
Definition note_activity (c : webRTCConn) (n : Z) : webRTCConn :=
  {| dc := dc c; pc_RemoteDescription := pc_RemoteDescription c;
     pc_Close_error := pc_Close_error c; pr_Close_error := pr_Close_error c;
     once := once c;
     activity := if (activity c <? 100)%nat then S (activity c) else activity c;
     sendMoreCh := sendMoreCh c;
     inbound := inbound c + n; calls := calls c |}.

(** [Write].  At the high-water mark it receives from [sendMoreCh]: it
    takes a signal that is waiting, or else waits for the low-water
    callback; [lowWater] tells whether that callback ever signals. *)
Definition Write (c : webRTCConn) (b : bytes) (lowWater : bool)
  : outcome (webRTCConn * (Z * option error)) :=
  let n := Z.of_nat (List.length b) in
  let c := note_activity c n in
  match dc c with
  | None => Returned (c, (n, None))
  | Some d =>
    let '(d', _) := dc_Send d b in
    let c := with_dc c (Some d') in
    if maxBufferedAmount <=? dc_BufferedAmount d' then
      match sendMoreCh c with
      | S waiting => Returned (with_sendMoreCh c waiting, (n, None))
      | O => if lowWater then Returned (c, (n, None)) else Blocked
      end
    else Returned (c, (n, None))
  end.

(** [Close]: the body runs under [c.once.Do]. *)
Definition Close (c : webRTCConn) : webRTCConn * option (list error) :=
  if once c then (c, None)
  else
    ({| dc := dc c; pc_RemoteDescription := pc_RemoteDescription c;
        pc_Close_error := pc_Close_error c; pr_Close_error := pr_Close_error c;
        once := true; activity := activity c; sendMoreCh := sendMoreCh c;
        inbound := inbound c;
        calls := calls c ++ [CancelTimeoutLoop; PipeReaderClose; PeerConnectionClose] |},
     errors_Join [pr_Close_error c; pc_Close_error c]).

Fixpoint Close_times (n : nat) (c : webRTCConn) : webRTCConn * list (option (list error)) :=
  match n with
  | O => (c, [])
  | S n' =>
    let '(c1, err) := Close c in
    let '(c2, errs) := Close_times n' c1 in
    (c2, err :: errs)
  end.

(** [RemoteIP]: [c.pc.RemoteDescription().SDP] dereferences the
    description. *)
Definition RemoteIP (c : webRTCConn) : outcome (option IP) :=
  match pc_RemoteDescription c with
  | None => Panicked "nil pointer dereference"
  | Some sdp => Returned (remoteIPFromSDP sdp)
  end.

(** *** Lemmas on the scans *)






(** *** The claims on the SDP inspector and the peer session *)


(** C7, as amended.  [RemoteIP] returns what [remoteIPFromSDP] finds in
    the remote description once one is set; on a session whose peer
    connection has none yet, it panics on the nil description. *)
Theorem RemoteIP_needs_remote_description (c : webRTCConn) :
  match pc_RemoteDescription c with
  | Some sdp => RemoteIP c = Returned (remoteIPFromSDP sdp)
  | None => RemoteIP c = Panicked "nil pointer dereference"
  end.
Proof. unfold RemoteIP. now destruct (pc_RemoteDescription c). Qed.

Lemma Close_again (c : webRTCConn) :
  once c = true -> forall n, Close_times n c = (c, repeat None n).
Proof.
  intros Hdone. induction n as [|n IH]; [reflexivity|].
  cbn [Close_times repeat]. unfold Close at 1. now rewrite Hdone, IH.
Qed.

(** C6. Close idempotence, for both sessions.  On a session that was not
    closed before, [N >= 1] calls of [Close] leave it as the first call
    does: the body ran once (cancel, pipe reader, peer connection, in
    that order; the peer connection alone in [snowflake.go]), the first
    call returned the joined errors, and every later call returned nil and
    called nothing. *)
Theorem Close_idempotent (n : nat) (c : webRTCConn) (c0 : ProxyMain.webRTCConn) :
  once c = false ->
  ProxyMain.conn_once c0 = false ->
  (Close_times (S n) c
     = (fst (Close c), errors_Join [pr_Close_error c; pc_Close_error c] :: repeat None n) /\
   calls (fst (Close_times (S n) c))
     = calls c ++ [CancelTimeoutLoop; PipeReaderClose; PeerConnectionClose] /\
   forall c1, once c1 = true -> Close c1 = (c1, None)) /\
  (ProxyMain.Close_times (S n) c0
     = (fst (ProxyMain.Close c0), ProxyMain.conn_pc_Close c0 :: repeat None n) /\
   ProxyMain.conn_log (fst (ProxyMain.Close_times (S n) c0))
     = ProxyMain.conn_log c0 ++ [ProxyMain.EvPcClose] /\
   forall c1, ProxyMain.conn_once c1 = true -> ProxyMain.Close c1 = (c1, None)).
Proof.
  intros Hfresh Hfresh0. split.
  - cbn [Close_times]. unfold Close at 1 2 3. rewrite Hfresh.
    rewrite Close_again by reflexivity. cbn [fst calls].
    repeat split. intros c1 H1. unfold Close. now rewrite H1.
  - destruct (ProxyMain.Close_times_once c0 n Hfresh0) as [H1 H2].
    repeat split; [exact H1|exact H2|].
    intros c1 H. unfold ProxyMain.Close. now rewrite H.
Qed.

(** C5, as amended.  [Write] never returns anything but the full length
    and no error.  In [snowflake.go] it always returns.  In
    [webrtcconn.go] it returns at once when the data channel reference is
    nil (and nothing is sent), when the buffered amount after the send is
    below [maxBufferedAmount], or when a send-more signal is waiting; at
    the high-water mark without a waiting signal it returns only if the
    low-water callback signals, and blocks otherwise. *)
Theorem Write_reports_full_length
  (c : webRTCConn) (c0 : ProxyMain.webRTCConn) (b : bytes) (lowWater : bool) :
  let n := Z.of_nat (List.length b) in
  snd (ProxyMain.Write c0 b) = (n, None) /\
  (ProxyMain.conn_dc c0 = None -> fst (ProxyMain.Write c0 b) = c0) /\
  (Write c b lowWater = Blocked \/
   exists c', Write c b lowWater = Returned (c', (n, None))) /\
  (dc c = None ->
   exists c', Write c b lowWater = Returned (c', (n, None)) /\ dc c' = None) /\
  (forall d, dc c = Some d ->
     let d' := fst (dc_Send d b) in
     (dc_BufferedAmount d' < maxBufferedAmount \/ (0 < sendMoreCh c)%nat \/ lowWater = true ->
      exists c', Write c b lowWater = Returned (c', (n, None)) /\ dc c' = Some d') /\
     (maxBufferedAmount <= dc_BufferedAmount d' -> sendMoreCh c = O -> lowWater = false ->
      Write c b lowWater = Blocked)).
Proof.
  cbv zeta.
  destruct (ProxyMain.Write_returns_length c0 b) as (H1 & H2 & _).
  split; [exact H1|]. split; [exact H2|].
  unfold Write. cbn [note_activity dc sendMoreCh with_dc].
  destruct (dc c) as [d|] eqn:Hdc.
  - destruct (dc_Send d b) as [d' serr] eqn:Hsend.
    destruct (Z.leb_spec maxBufferedAmount (dc_BufferedAmount d')) as [Hhigh|Hlow].
    + destruct (sendMoreCh c) as [|waiting].
      * destruct lowWater.
        -- split; [right; eauto|]. split; [discriminate|].
           intros d0 Hd0; injection Hd0 as <-. rewrite Hsend; cbn [fst].
           split; [intros _; eauto | intros; discriminate].
        -- split; [now left|]. split; [discriminate|].
           intros d0 Hd0; injection Hd0 as <-. rewrite Hsend; cbn [fst].
           split; [|reflexivity].
           intros [?|[?|?]]; [lia|lia|discriminate].
      * split; [right; eauto|]. split; [discriminate|].
        intros d0 Hd0; injection Hd0 as <-. rewrite Hsend; cbn [fst].
        split; [intros _; eauto | intros; discriminate].
    + split; [right; eauto|]. split; [discriminate|].
      intros d0 Hd0; injection Hd0 as <-. rewrite Hsend; cbn [fst].
      split; [intros _; eauto | intros; lia].
  - split; [right; eauto|]. split; [|intros d Hd; discriminate].
    intros _. eexists. split; [reflexivity|exact Hdc].
Qed.

(** *** Writes in a row *)

(** Several calls of [Write], one after the other, as the copy loop makes
    them; the run stops at the first call that does not return. *)
Fixpoint Write_all (c : webRTCConn) (bs : list bytes) (lowWater : bool)
  : outcome (webRTCConn * list (Z * option error)) :=
  match bs with
  | [] => Returned (c, [])
  | b :: rest =>
    match Write c b lowWater with
    | Returned (c1, r) =>
      match Write_all c1 rest lowWater with
      | Returned (c2, rs) => Returned (c2, r :: rs)
      | Panicked msg => Panicked msg
      | Blocked => Blocked
      end
    | Panicked msg => Panicked msg
    | Blocked => Blocked
    end
  end.

Definition total_length (bs : list bytes) : Z :=
  fold_right (fun b n => Z.of_nat (List.length b) + n) 0 bs.

(** After the data channel is gone.  Once the reference is nil, any run
    of writes returns, each with its full length, whether or not a
    send-more signal ever comes: nothing is sent, every byte is counted
    as inbound, the activity channel fills up to its hundred signals and
    the signals beyond are dropped without blocking, and the session is
    not closed by writing. *)
Theorem Write_all_after_data_channel_loss
  (c : webRTCConn) (bs : list bytes) (lowWater : bool) :
  dc c = None ->
  (activity c <= 100)%nat ->
  exists c',
    Write_all c bs lowWater
      = Returned (c', map (fun b => (Z.of_nat (List.length b), None)) bs) /\
    dc c' = None /\
    inbound c' = inbound c + total_length bs /\
    activity c' = Nat.min 100 (activity c + List.length bs) /\
    sendMoreCh c' = sendMoreCh c /\
    once c' = once c /\
    calls c' = calls c /\
    pc_RemoteDescription c' = pc_RemoteDescription c.
Proof.
  revert c. induction bs as [|b bs IH]; intros c Hdc Hact.
  - exists c. cbn [Write_all map total_length fold_right List.length].
    split; [reflexivity|]. split; [exact Hdc|]. split; [lia|]. split; [lia|].
    repeat split.
  - cbn [Write_all]. unfold Write at 1. cbn [note_activity dc]. rewrite Hdc.
    set (c1 := note_activity c (Z.of_nat (List.length b))).
    assert (Hact1 : (activity c1 <= 100)%nat /\
                    activity c1 = Nat.min 100 (activity c + 1)).
    { subst c1; cbn [note_activity activity].
      destruct (Nat.ltb_spec (activity c) 100); lia. }
    destruct Hact1 as [Hact1 Hact1'].
    destruct (IH c1 Hdc Hact1) as (c' & Hrun & Hdc' & Hin & Ha & Hs & Ho & Hc & Hp).
    exists c'. rewrite Hrun. cbn [map].
    split; [reflexivity|]. split; [exact Hdc'|].
    split; [rewrite Hin; subst c1; cbn [note_activity inbound]; unfold total_length;
            cbn [fold_right]; lia|].
    split; [rewrite Ha, Hact1'; cbn [List.length]; lia|].
    repeat split; assumption.
Qed.

End Conn.

(** *** Concrete texts and sessions

    The collaborators below are tables: each gives what the Go library
    returns on the texts used here, and nothing on any other.  Addresses
    are kept as their text. *)

Local Open Scope string_scope.

Definition nl : string := String "010"%char EmptyString.

(** A connection line alone: not a session description (no [v=] line). *)
Definition sdpConnectionOnly : string := "c=IN IP4 8.8.8.8" ++ nl.

Definition hostCandidate : string := "1 1 udp 2130706431 192.168.1.5 54321 typ host".
Definition srflxCandidate : string :=
  "2 1 udp 1694498815 8.8.4.4 54321 typ srflx raddr 192.168.1.5 rport 54321".

(** An offer with a host candidate on the LAN and a server-reflexive
    one. *)
Definition sdpTwoCandidates : string :=
  "v=0" ++ nl ++
  "o=- 0 0 IN IP4 0.0.0.0" ++ nl ++
  "s=-" ++ nl ++
  "t=0 0" ++ nl ++
  "m=application 9 UDP/DTLS/SCTP webrtc-datachannel" ++ nl ++
  "c=IN IP4 0.0.0.0" ++ nl ++
  "a=candidate:" ++ hostCandidate ++ nl ++
  "a=candidate:" ++ srflxCandidate ++ nl.

Definition demoParseIP (s : string) : option string :=
  if existsb (String.eqb s) ["8.8.8.8"; "8.8.4.4"; "192.168.1.5"; "0.0.0.0"]%string
  then Some s else None.

Definition demoIsLocal (ip : string) : bool := String.prefix "192.168." ip.
Definition demoIsUnspecified (ip : string) : bool := String.eqb ip "0.0.0.0".
Definition demoIsLoopback (ip : string) : bool := String.prefix "127." ip.

Definition demoUnmarshal (str : string) : result SessionDescription :=
  if String.eqb str sdpTwoCandidates then
    Ok {| MediaDescriptions :=
            [{| Attributes := [{| Key := "candidate"; Value := hostCandidate |};
                               {| Key := "candidate"; Value := srflxCandidate |}] |}] |}
  else Err "sdp: invalid syntax".

Definition demoCandidateAddress (value : string) : result string :=
  if String.eqb value hostCandidate then Ok "192.168.1.5"%string
  else if String.eqb value srflxCandidate then Ok "8.8.4.4"%string
  else Err "attribute not long enough to be ICE candidate".

Definition demoFindStringSubmatch (pattern str : string) : option (list string) :=
  if String.eqb pattern patternIPv4 && String.eqb str sdpConnectionOnly
  then Some [sdpConnectionOnly; "8.8.8.8"%string; nl]
  else if String.eqb pattern patternIPv4 && String.eqb str sdpTwoCandidates
  then Some [("c=IN IP4 0.0.0.0" ++ nl)%string; "0.0.0.0"%string; nl]
  else None.



(** A data channel that is the number of bytes it buffers. *)
Definition demoSend (d : Z) (b : bytes) : Z * option error :=
  (d + Z.of_nat (List.length b), None).
Definition demoBufferedAmount (d : Z) : Z := d.

(** A session just built by the [OnDataChannel] callback, around a data
    channel that buffers [buffered] bytes. *)
Definition demoConn (buffered : Z) (remote : option string) : webRTCConn Z :=
  {| dc := Some buffered; pc_RemoteDescription := remote;
     pc_Close_error := None; pr_Close_error := None;
     once := false; activity := 0; sendMoreCh := 0; inbound := 0; calls := [] |}.

Definition demoConn0 : ProxyMain.webRTCConn :=
  {| ProxyMain.conn_dc := Some []; ProxyMain.conn_once := false;
     ProxyMain.conn_pc_Close := None; ProxyMain.conn_log := [] |}.



(** C7 as stated fails: before a remote description is set, [RemoteIP]
    panics and returns nothing. *)
Lemma RemoteIP_panics_before_negotiation :
  RemoteIP string demoParseIP demoIsLocal demoIsUnspecified demoIsLoopback
    demoUnmarshal demoCandidateAddress demoFindStringSubmatch Z (demoConn 0 None)
  = Panicked "nil pointer dereference" /\
  RemoteIP string demoParseIP demoIsLocal demoIsUnspecified demoIsLoopback
    demoUnmarshal demoCandidateAddress demoFindStringSubmatch Z (demoConn 0 None)
  <> Returned None.
Proof. split; [reflexivity|discriminate]. Qed.

Lemma Close_idempotent_witness :
  calls Z (fst (Close_times Z 3 (demoConn 0 None)))
    = [CancelTimeoutLoop; PipeReaderClose; PeerConnectionClose] /\
  snd (Close_times Z 3 (demoConn 0 None)) = [None; None; None] /\
  ProxyMain.conn_log (fst (ProxyMain.Close_times 3 demoConn0)) = [ProxyMain.EvPcClose].
Proof.
  destruct (Close_idempotent Z 2 (demoConn 0 None) demoConn0 eq_refl eq_refl)
    as [(Hlib & Hcalls & _) (_ & Hlog & _)].
  split; [exact Hcalls|]. split; [|exact Hlog].
  rewrite Hlib. reflexivity.
Defined.

(** C5 as stated fails: with the data channel at its high-water mark and
    no send-more signal, now or later, [Write] does not return. *)
Lemma Write_blocks_at_high_water :
  dc Z (demoConn maxBufferedAmount None) = Some maxBufferedAmount /\
  Write Z demoSend demoBufferedAmount (demoConn maxBufferedAmount None) [x61] false
  = Blocked /\
  (forall c', Write Z demoSend demoBufferedAmount (demoConn maxBufferedAmount None)
                [x61] false
              <> Returned (c', (1, None))).
Proof. split; [reflexivity|]. split; [reflexivity|]. intros c'; discriminate. Qed.

(** A session whose data channel is gone and whose activity channel is
    nearly full. *)
Definition lostConn : webRTCConn Z :=
  {| dc := None; pc_RemoteDescription := None;
     pc_Close_error := None; pr_Close_error := None;
     once := false; activity := 99; sendMoreCh := 0; inbound := 0; calls := nil |}.

Lemma Write_all_after_data_channel_loss_witness :
  exists c',
    Write_all Z demoSend demoBufferedAmount lostConn
      (cons (cons x61 nil) (cons (cons x62 (cons x63 nil)) (cons nil nil))) false
    = Returned (c', cons (1, None) (cons (2, None) (cons (0, None) nil))) /\
    inbound Z c' = 3 /\ activity Z c' = 100%nat.
Proof.
  destruct (Write_all_after_data_channel_loss Z demoSend demoBufferedAmount lostConn
              (cons (cons x61 nil) (cons (cons x62 (cons x63 nil)) (cons nil nil))) false
              eq_refl)
    as (c' & Hrun & _ & Hin & Hact & _).
  - cbn. lia.
  - exists c'. split; [exact Hrun|]. split; [exact Hin|exact Hact].
Defined.

End ProxyLib.
